(** * Terminal-session relay (server/index.js, server/pty-wsl-fallback.js)

    A shallow embedding of the Socket.IO terminal relay: the module-level
    backend state ([pty], [fallbackPty], [terminalBackend]), the two
    pipe-based process handles written in the repository (the [PtyProcess]
    class of pty-wsl-fallback.js and the object literal returned by
    [createPowerShellFallback]), the fallback chain of [spawnPty], and the
    event handlers registered in [io.on('connection')].

    What the repository does not contain is kept apart:
    - the Node.js runtime objects the code calls ([ChildProcess], its
      [stdin] stream, [Buffer.prototype.toString]) are modelled in
      [Module Runtime];
    - the handle returned by the external [node-pty] library is left
      abstract (class [NodePty]); every theorem holds for any behaviour
      of that library, and the scenarios run on two stand-ins for it. *)

From Stdlib Require Import NArith Ascii String List Sorted Lia.
From stdpp Require Import base option list strings gmap.

Local Open Scope string_scope.

(** ** The Node.js runtime, as far as the relay observes it *)

Module Runtime.

Local Open Scope N_scope.

(** A JavaScript string is represented by the bytes of its UTF-8
    encoding (what a stream write of the string puts on the pipe); a
    [Buffer] is a list of byte values. *)
Definition Buffer := list N.

(** *** [Buffer.prototype.toString()]: UTF-8 decoding with U+FFFD
    replacement of ill-formed sequences. *)

Record Pending := {
  remaining : nat;      (* continuation bytes still expected *)
  code_point : N;       (* bits accumulated so far *)
  lower : N;            (* admissible range of the next byte *)
  upper : N
}.

Definition REPLACEMENT : N := 0xFFFD.

(* A byte read while no multi-byte sequence is open. *)
Definition lead (b : N) : list N * option Pending :=
  if b <=? 0x7F then ([b], None)
  else if (0xC2 <=? b) && (b <=? 0xDF) then
    ([], Some {| remaining := 1; code_point := N.land b 0x1F;
                 lower := 0x80; upper := 0xBF |})
  else if (0xE0 <=? b) && (b <=? 0xEF) then
    ([], Some {| remaining := 2; code_point := N.land b 0xF;
                 lower := if b =? 0xE0 then 0xA0 else 0x80;
                 upper := if b =? 0xED then 0x9F else 0xBF |})
  else if (0xF0 <=? b) && (b <=? 0xF4) then
    ([], Some {| remaining := 3; code_point := N.land b 0x7;
                 lower := if b =? 0xF0 then 0x90 else 0x80;
                 upper := if b =? 0xF4 then 0x8F else 0xBF |})
  else ([REPLACEMENT], None).

(* A byte read while a sequence is open: either it continues the
   sequence, or the sequence is replaced and the byte is read afresh. *)
Definition continuation (p : Pending) (b : N) : list N * option Pending :=
  if (lower p <=? b) && (b <=? upper p) then
    let cp := N.lor (N.shiftl (code_point p) 6) (N.land b 0x3F) in
    match remaining p with
    | 0%nat | 1%nat => ([cp], None)
    | S n => ([], Some {| remaining := n; code_point := cp;
                          lower := 0x80; upper := 0xBF |})
    end
  else
    let '(out, st) := lead b in (REPLACEMENT :: out, st).

Fixpoint decode (st : option Pending) (bs : Buffer) : list N :=
  match bs with
  | [] => match st with None => [] | Some _ => [REPLACEMENT] end
  | b :: bs' =>
      let '(out, st') :=
        match st with
        | None => lead b
        | Some p => continuation p b
        end in
      out ++ decode st' bs'
  end.

(* UTF-8 encoding of one scalar value. *)
Definition encode (cp : N) : list N :=
  if cp <? 0x80 then [cp]
  else if cp <? 0x800 then
    [N.lor 0xC0 (N.shiftr cp 6); N.lor 0x80 (N.land cp 0x3F)]
  else if cp <? 0x10000 then
    [N.lor 0xE0 (N.shiftr cp 12);
     N.lor 0x80 (N.land (N.shiftr cp 6) 0x3F);
     N.lor 0x80 (N.land cp 0x3F)]
  else
    [N.lor 0xF0 (N.shiftr cp 18);
     N.lor 0x80 (N.land (N.shiftr cp 12) 0x3F);
     N.lor 0x80 (N.land (N.shiftr cp 6) 0x3F);
     N.lor 0x80 (N.land cp 0x3F)].

Definition string_of_bytes (bs : list N) : string :=
  string_of_list_ascii (map ascii_of_N bs).

Definition bytes_of_string (s : string) : list N :=
  map N_of_ascii (list_ascii_of_string s).

Definition toString (b : Buffer) : string :=
  string_of_bytes (flat_map encode (decode None b)).

(** *** [ChildProcess]: the object returned by [child_process.spawn]. *)

Record ChildProcess := {
  spawnfile : string;
  spawnargs : list string;
  killed : bool;            (* [child.killed]: a signal was delivered *)
  exited : bool;            (* the process handle is closed *)
  stdin_writable : bool;    (* [child.stdin.writable] *)
  stdin : list string       (* chunks accepted by [child.stdin.write] *)
}.

(* [child_process.spawn(file, args, options)] when it does not throw. *)
Definition childSpawn (file : string) (args : list string) : ChildProcess :=
  {| spawnfile := file; spawnargs := args; killed := false;
     exited := false; stdin_writable := true; stdin := [] |}.

(* [child.stdin.write(data)] of a string, when the write succeeds: the
   chunk is accepted. What the call can raise instead is told apart in
   [stdin_write_checked] below. *)
Definition stdin_write (data : string) (c : ChildProcess) : ChildProcess :=
  {| spawnfile := spawnfile c; spawnargs := spawnargs c; killed := killed c;
     exited := exited c; stdin_writable := stdin_writable c;
     stdin := stdin c ++ [data] |}.

(* [child.kill()]: delivers SIGTERM and sets [killed] when the process
   handle is still open; returns false and changes nothing once the
   process has exited. The process exits later, on its own event. *)
Definition child_kill (c : ChildProcess) : ChildProcess :=
  if exited c then c
  else {| spawnfile := spawnfile c; spawnargs := spawnargs c; killed := true;
          exited := exited c; stdin_writable := stdin_writable c;
          stdin := stdin c |}.

(* The runtime's exit bookkeeping, before the ['exit'] listeners run:
   the handle is closed and [stdin] is destroyed. *)
Definition child_exit (c : ChildProcess) : ChildProcess :=
  {| spawnfile := spawnfile c; spawnargs := spawnargs c; killed := killed c;
     exited := true; stdin_writable := false; stdin := stdin c |}.

End Runtime.

Import Runtime.

Definition CRLF : string := String "013"%char (String "010"%char EmptyString).

(** A handler invocation: the callback that was called and its argument. *)
Definition Call (C : Type) : Type := C * string.

(** ** server/pty-wsl-fallback.js *)

Module PtyWslFallback.
Section WithCallback.
Context {C : Type}.

Record PtyProcess := {
  process : ChildProcess;
  onDataCallback : option C
}.

(* [constructor(command, args, options)]; [isWindows] is
   [os.platform() === 'win32']. *)
Definition constructor (isWindows : bool) (command : string)
    (args : list string) : PtyProcess :=
  {| process :=
       if isWindows && String.eqb command "powershell.exe" then
         childSpawn "wsl.exe" ["bash"]
       else if isWindows then
         childSpawn "wsl.exe" (command :: args)
       else
         childSpawn command args;
     onDataCallback := None |}.

Definition spawn := constructor.

(* [this.process.stdout.on('data', ...)] *)
Definition stdout_data (data : Buffer) (p : PtyProcess) : list (Call C) :=
  match onDataCallback p with
  | Some callback => [(callback, toString data)]
  | None => []
  end.

(* [this.process.stderr.on('data', ...)] *)
Definition stderr_data (data : Buffer) (p : PtyProcess) : list (Call C) :=
  match onDataCallback p with
  | Some callback => [(callback, toString data)]
  | None => []
  end.

Definition exit_notice : string := CRLF ++ "[Process exited]" ++ CRLF.

(* [this.process.on('exit', ...)] *)
Definition on_exit (p : PtyProcess) : list (Call C) :=
  match onDataCallback p with
  | Some callback => [(callback, exit_notice)]
  | None => []
  end.

Definition onData (callback : C) (p : PtyProcess) : PtyProcess :=
  {| process := process p; onDataCallback := Some callback |}.

Definition write (data : string) (p : PtyProcess) : PtyProcess :=
  if stdin_writable (process p) then
    {| process := stdin_write data (process p);
       onDataCallback := onDataCallback p |}
  else p.

(* [this.process] is the ChildProcess object, hence truthy. *)
Definition kill (p : PtyProcess) : PtyProcess :=
  if negb (killed (process p)) then
    {| process := child_kill (process p);
       onDataCallback := onDataCallback p |}
  else p.

(* The process exits: runtime bookkeeping, then the ['exit'] listener. *)
Definition process_exit (p : PtyProcess) : PtyProcess * list (Call C) :=
  ({| process := child_exit (process p);
      onDataCallback := onDataCallback p |}, on_exit p).

End WithCallback.
Arguments PtyProcess : clear implicits.
End PtyWslFallback.

(** ** server/index.js: [createPowerShellFallback] *)

Module PowerShellFallback.
Section WithCallback.
Context {C : Type}.

(* The closure state behind the returned object literal. *)
Record Handle := {
  child : ChildProcess;
  dataHandler : option C
}.

(* The body after [terminalBackend = 'powershell-child']. *)
Definition create : Handle :=
  {| child := childSpawn "powershell.exe" []; dataHandler := None |}.

(* [emitData], listener of both [child.stdout] and [child.stderr]. *)
Definition emitData (chunk : Buffer) (h : Handle) : list (Call C) :=
  match dataHandler h with
  | Some handler => [(handler, toString chunk)]
  | None => []
  end.

Definition exit_notice : string :=
  CRLF ++ "[PowerShell process exited]" ++ CRLF.

(* [child.on('exit', ...)] *)
Definition on_exit (h : Handle) : list (Call C) :=
  match dataHandler h with
  | Some handler => [(handler, exit_notice)]
  | None => []
  end.

Definition onData (handler : C) (h : Handle) : Handle :=
  {| child := child h; dataHandler := Some handler |}.

Definition write (data : string) (h : Handle) : Handle :=
  if stdin_writable (child h) then
    {| child := stdin_write data (child h); dataHandler := dataHandler h |}
  else h.

Definition kill (h : Handle) : Handle :=
  if negb (killed (child h)) then
    {| child := child_kill (child h); dataHandler := dataHandler h |}
  else h.

Definition process_exit (h : Handle) : Handle * list (Call C) :=
  ({| child := child_exit (child h); dataHandler := dataHandler h |},
   on_exit h).

End WithCallback.
Arguments Handle : clear implicits.
End PowerShellFallback.

(** ** server/index.js: backend state and [spawnPty] *)

Local Open Scope list_scope.

(** The values taken by [terminalBackend]; they also name the strategy an
    attempt goes through. *)
Inductive Backend := NodePtyBackend | WslFallback | PowershellChild.

Definition backend_name (b : Backend) : string :=
  match b with
  | NodePtyBackend => "node-pty"
  | WslFallback => "wsl-fallback"
  | PowershellChild => "powershell-child"
  end.

#[global] Instance Backend_eq_dec : EqDecision Backend.
Proof. solve_decision. Defined.

(** Position in the demotion path. *)
Definition rank (b : Backend) : nat :=
  match b with
  | NodePtyBackend => 0
  | WslFallback => 1
  | PowershellChild => 2
  end.

(** What the variable [pty] can hold: the node-pty module or the module
    of pty-wsl-fallback.js. *)
Inductive PtyModule := NodePtyModule | FallbackModule.

Definition strategy_of (m : PtyModule) : Backend :=
  match m with
  | NodePtyModule => NodePtyBackend
  | FallbackModule => WslFallback
  end.

Inductive Error :=
| ImportFailed (m : PtyModule)     (* a dynamic [import()] rejected *)
| SpawnFailed (b : Backend)        (* a spawn call threw *)
| NodePtyFailure.                  (* thrown inside the node-pty library *)

Inductive Result (A : Type) :=
| Ok (a : A)
| Throw (e : Error).
Arguments Ok {A} a.
Arguments Throw {A} e.

(** The external node-pty library: the handle returned by a successful
    [pty.spawn] and the operations the relay calls on it, plus what the
    library does when the terminal produces output or exits. Callbacks
    registered by the relay are identified by the socket they emit to. *)
Class NodePty (Pty : Type) := {
  np_spawn : Pty;
  np_onData : string -> Pty -> Pty;
  np_write : string -> Pty -> Pty * option Error;
  np_kill : Pty -> Pty * option Error;
  np_data : Buffer -> Pty -> Pty * list (Call string);
  np_exit : Pty -> Pty * list (Call string)
}.

(** Host facts fixed for one connection attempt: which of the underlying
    mechanisms work when tried. *)
Record Outcomes := {
  nodePtySpawns : bool;       (* node-pty's [spawn] returns *)
  fallbackImports : bool;     (* [import('./pty-wsl-fallback.js')] resolves *)
  wslSpawns : bool;           (* [new PtyProcess(...)] returns *)
  powershellSpawns : bool     (* [childSpawn('powershell.exe', ...)] returns *)
}.

Record BackendState := {
  pty : PtyModule;
  fallbackPty : bool;         (* the fallback module has been imported *)
  terminalBackend : Backend
}.

(** [let pty; let fallbackPty; let terminalBackend = 'node-pty';] with
    [pty] already set by a successful import of node-pty. *)
Definition initial_backend : BackendState :=
  {| pty := NodePtyModule; fallbackPty := false;
     terminalBackend := NodePtyBackend |}.

Definition shellCommand (isWindows : bool) : string :=
  if isWindows then "powershell.exe" else "bash".
Definition shellArgs : list string := [].

(** A process handle, whichever strategy produced it. *)
Inductive Handle (Pty : Type) :=
| Native (n : Pty)
| Wsl (p : PtyWslFallback.PtyProcess string)
| PowerShell (h : PowerShellFallback.Handle string).
Arguments Native {Pty} n.
Arguments Wsl {Pty} p.
Arguments PowerShell {Pty} h.

(** Code over the backend state that may throw; the third component
    records, in order, the strategies through which a spawn was tried. *)
Definition M (A : Type) : Type :=
  BackendState -> Result A * BackendState * list Backend.

Definition ret {A} (a : A) : M A := fun st => (Ok a, st, []).
Definition throw {A} (e : Error) : M A := fun st => (Throw e, st, []).

Definition bind {A B} (m : M A) (k : A -> M B) : M B :=
  fun st =>
    match m st with
    | (Ok a, st1, t1) => let '(r, st2, t2) := k a st1 in (r, st2, t1 ++ t2)
    | (Throw e, st1, t1) => (Throw e, st1, t1)
    end.

Definition try_catch {A} (m : M A) (handler : Error -> M A) : M A :=
  fun st =>
    match m st with
    | (Ok a, st1, t1) => (Ok a, st1, t1)
    | (Throw e, st1, t1) =>
        let '(r, st2, t2) := handler e st1 in (r, st2, t1 ++ t2)
    end.

Definition get : M BackendState := fun st => (Ok st, st, []).
Definition put (st : BackendState) : M unit := fun _ => (Ok tt, st, []).
Definition attempt (b : Backend) : M unit := fun st => (Ok tt, st, [b]).

Declare Scope relay_scope.
Delimit Scope relay_scope with relay.
Notation "'let*' x ':=' m 'in' k" := (bind m (fun x => k))
  (at level 10, x name, m at level 100, k at level 200) : relay_scope.
Notation "m ';;' k" := (bind m (fun _ => k))
  (at level 100, k at level 200, right associativity) : relay_scope.

Section Relay.
Context {Pty : Type} `{!NodePty Pty}.
Variable isWindows : bool.

Local Open Scope relay_scope.

Definition set_terminalBackend (b : Backend) : M unit :=
  let* st := get in
  put {| pty := pty st; fallbackPty := fallbackPty st; terminalBackend := b |}.

Definition set_pty (m : PtyModule) : M unit :=
  let* st := get in
  put {| pty := m; fallbackPty := fallbackPty st;
         terminalBackend := terminalBackend st |}.

Definition set_fallbackPty : M unit :=
  let* st := get in
  put {| pty := pty st; fallbackPty := true;
         terminalBackend := terminalBackend st |}.

Definition loadFallback (o : Outcomes) : M PtyModule :=
  let* st := get in
  (if fallbackPty st then ret tt
   else if fallbackImports o then set_fallbackPty
   else throw (ImportFailed FallbackModule));;
  set_terminalBackend WslFallback;;
  ret FallbackModule.

Definition createPowerShellFallback (o : Outcomes) : M (Handle Pty) :=
  set_terminalBackend PowershellChild;;
  attempt PowershellChild;;
  if powershellSpawns o then ret (PowerShell PowerShellFallback.create)
  else throw (SpawnFailed PowershellChild).

(* [pty.spawn(shellCommand, shellArgs, {...})] *)
Definition pty_spawn (o : Outcomes) : M (Handle Pty) :=
  let* st := get in
  attempt (strategy_of (pty st));;
  match pty st with
  | NodePtyModule =>
      if nodePtySpawns o then ret (Native np_spawn)
      else throw (SpawnFailed NodePtyBackend)
  | FallbackModule =>
      if wslSpawns o then
        ret (Wsl (PtyWslFallback.spawn isWindows (shellCommand isWindows) shellArgs))
      else throw (SpawnFailed WslFallback)
  end.

(* [terminalBackend === b] *)
Definition is_backend (b : Backend) : M bool :=
  let* st := get in
  ret (bool_decide (terminalBackend st = b)).

Definition spawnPty (o : Outcomes) : M (Handle Pty) :=
  try_catch (pty_spawn o) (fun error =>
    let* on_node_pty := is_backend NodePtyBackend in
    if on_node_pty then
      try_catch
        (let* m := loadFallback o in
         set_pty m;;
         pty_spawn o)
        (fun fallbackError =>
           if isWindows then createPowerShellFallback o
           else throw fallbackError)
    else
      let* on_wsl := is_backend WslFallback in
      if on_wsl && isWindows then createPowerShellFallback o
      else throw error).

(** The top-level [try { await import('node-pty') } catch ...]:
    [nodePtyImports] tells whether the import resolves. *)
Definition startup (nodePtyImports : bool) (o : Outcomes) : Result BackendState :=
  if nodePtyImports then Ok initial_backend
  else if isWindows then
    match (let* m := loadFallback o in set_pty m) initial_backend with
    | (Ok _, st, _) => Ok st
    | (Throw e, _, _) => Throw e
    end
  else Throw (ImportFailed NodePtyModule).

(** *** The registry and the sockets *)

(** A socket as the relay sees it: what was emitted on it as
    ['terminal.output'], whether the server closed it, and the
    [ptyProcess] captured by its ['terminal.input'] and ['disconnect']
    listeners (absent when the listeners were never registered). *)
Record Socket := {
  emitted : list string;
  disconnected : bool;
  ptyProcess : option nat
}.

(** Process handles are objects shared between [activePtys] and the
    listeners' closures: they live in [heap] and are named by their
    index. *)
Record Server := {
  backend : BackendState;
  heap : list (Handle Pty);
  activePtys : gmap string nat;
  sockets : gmap string Socket
}.

Definition handle_onData (callback : string) (h : Handle Pty) : Handle Pty :=
  match h with
  | Native n => Native (np_onData callback n)
  | Wsl p => Wsl (PtyWslFallback.onData callback p)
  | PowerShell p => PowerShell (PowerShellFallback.onData callback p)
  end.

Definition handle_write (data : string) (h : Handle Pty) : Handle Pty * option Error :=
  match h with
  | Native n => let '(n', e) := np_write data n in (Native n', e)
  | Wsl p => (Wsl (PtyWslFallback.write data p), None)
  | PowerShell p => (PowerShell (PowerShellFallback.write data p), None)
  end.

Definition handle_kill (h : Handle Pty) : Handle Pty * option Error :=
  match h with
  | Native n => let '(n', e) := np_kill n in (Native n', e)
  | Wsl p => (Wsl (PtyWslFallback.kill p), None)
  | PowerShell p => (PowerShell (PowerShellFallback.kill p), None)
  end.

(** Input payloads: text or binary. (A client can send other values
    too; see [JsValue] below.) *)
Inductive Payload :=
| Text (s : string)
| Binary (b : Buffer).

(* JavaScript truthiness: the empty string is falsy, objects are not. *)
Definition truthy (data : Payload) : bool :=
  match data with
  | Text s => negb (String.eqb s "")
  | Binary _ => true
  end.

(* [Buffer.isBuffer(data) ? data.toString() : data] *)
Definition input_string (data : Payload) : string :=
  match data with
  | Text s => s
  | Binary b => toString b
  end.

(* [socket.emit('terminal.output', data)] *)
Definition socket_emit (id : string) (data : string)
    (ss : gmap string Socket) : gmap string Socket :=
  alter (fun k => {| emitted := emitted k ++ [data];
                     disconnected := disconnected k;
                     ptyProcess := ptyProcess k |}) id ss.

(* Running the callbacks [(data) => socket.emit('terminal.output', data)]. *)
Definition run_calls (calls : list (Call string))
    (ss : gmap string Socket) : gmap string Socket :=
  fold_left (fun acc c => socket_emit (fst c) (snd c) acc) calls ss.

Definition unable_notice : string :=
  CRLF +:+ "[Server] Unable to start terminal session. Check server logs."
       +:+ CRLF.

(** [io.on('connection', async (socket) => ...)] for a new socket
    [id]. *)
Definition connection (id : string) (o : Outcomes) (s : Server) : Server :=
  match spawnPty o (backend s) with
  | (Throw error, b, _) =>
      {| backend := b; heap := heap s; activePtys := activePtys s;
         sockets := <[id := {| emitted := [unable_notice];
                               disconnected := true;
                               ptyProcess := None |}]> (sockets s) |}
  | (Ok h, b, _) =>
      let ref := length (heap s) in
      {| backend := b;
         heap := heap s ++ [handle_onData id h];
         activePtys := <[id := ref]> (activePtys s);
         sockets := <[id := {| emitted := []; disconnected := false;
                               ptyProcess := Some ref |}]> (sockets s) |}
  end.

(** [socket.on('terminal.input', (data) => ...)] *)
Definition terminal_input (id : string) (data : Payload) (s : Server)
    : Result Server :=
  match sockets s !! id ≫= ptyProcess with
  | None => Ok s
  | Some ref =>
      if truthy data then
        match heap s !! ref with
        | None => Ok s
        | Some h =>
            let '(h', e) := handle_write (input_string data) h in
            let s' := {| backend := backend s; heap := <[ref := h']> (heap s);
                         activePtys := activePtys s; sockets := sockets s |} in
            match e with
            | None => Ok s'
            | Some err => Throw err
            end
        end
      else Ok s
  end.

(** [socket.on('disconnect', () => ...)]: the handle is looked up in
    [activePtys]; an exception of [proc.kill()] is caught and logged,
    and the entry is deleted in the [finally] block. *)
Definition disconnect (id : string) (s : Server) : Server :=
  match sockets s !! id ≫= ptyProcess with
  | None => s
  | Some _ =>
      match activePtys s !! id with
      | None => s
      | Some ref =>
          {| backend := backend s;
             heap := match heap s !! ref with
                     | Some h => <[ref := fst (handle_kill h)]> (heap s)
                     | None => heap s
                     end;
             activePtys := delete id (activePtys s);
             sockets := sockets s |}
      end
  end.

(** Runtime events on a spawned process: output on one of its streams,
    and its exit. *)
Inductive Stream := Stdout | Stderr.

Definition handle_data (from : Stream) (chunk : Buffer) (h : Handle Pty)
    : Handle Pty * list (Call string) :=
  match h with
  | Native n => let '(n', calls) := np_data chunk n in (Native n', calls)
  | Wsl p =>
      (h, match from with
          | Stdout => PtyWslFallback.stdout_data chunk p
          | Stderr => PtyWslFallback.stderr_data chunk p
          end)
  | PowerShell p => (h, PowerShellFallback.emitData chunk p)
  end.

Definition handle_exit (h : Handle Pty) : Handle Pty * list (Call string) :=
  match h with
  | Native n => let '(n', calls) := np_exit n in (Native n', calls)
  | Wsl p => let '(p', calls) := PtyWslFallback.process_exit p in (Wsl p', calls)
  | PowerShell p =>
      let '(p', calls) := PowerShellFallback.process_exit p in
      (PowerShell p', calls)
  end.

(* Has the runtime already emitted ['exit'] for this handle? Node emits
   it once per child; what node-pty does is the library's business. *)
Definition has_exited (h : Handle Pty) : bool :=
  match h with
  | Native _ => false
  | Wsl p => exited (PtyWslFallback.process p)
  | PowerShell p => exited (PowerShellFallback.child p)
  end.

Definition process_data (ref : nat) (from : Stream) (chunk : Buffer)
    (s : Server) : Server :=
  match heap s !! ref with
  | None => s
  | Some h =>
      let '(h', calls) := handle_data from chunk h in
      {| backend := backend s; heap := <[ref := h']> (heap s);
         activePtys := activePtys s;
         sockets := run_calls calls (sockets s) |}
  end.

Definition process_exit (ref : nat) (s : Server) : Server :=
  match heap s !! ref with
  | None => s
  | Some h =>
      if has_exited h then s
      else
        let '(h', calls) := handle_exit h in
        {| backend := backend s; heap := <[ref := h']> (heap s);
           activePtys := activePtys s;
           sockets := run_calls calls (sockets s) |}
  end.

Inductive Event :=
| Connection (id : string) (o : Outcomes)
| TerminalInput (id : string) (data : Payload)
| Disconnect (id : string)
| ProcessData (ref : nat) (from : Stream) (chunk : Buffer)
| ProcessExit (ref : nat).

Definition step (ev : Event) (s : Server) : Result Server :=
  match ev with
  | Connection id o => Ok (connection id o s)
  | TerminalInput id data => terminal_input id data s
  | Disconnect id => Ok (disconnect id s)
  | ProcessData ref from chunk => Ok (process_data ref from chunk s)
  | ProcessExit ref => Ok (process_exit ref s)
  end.

(** A run of the event loop; an exception that escapes a listener ends
    it. *)
Fixpoint run (evs : list Event) (s : Server) : Result Server :=
  match evs with
  | [] => Ok s
  | ev :: evs' =>
      match step ev s with
      | Ok s' => run evs' s'
      | Throw e => Throw e
      end
  end.

Definition boot (nodePtyImports : bool) (o : Outcomes) : Result Server :=
  match startup nodePtyImports o with
  | Ok b => Ok {| backend := b; heap := []; activePtys := ∅; sockets := ∅ |}
  | Throw e => Throw e
  end.

(** [app.get('/health', ...)]: the JSON body, as its key/value pairs;
    [now] is [new Date().toISOString()]. *)
Definition health (now : string) (s : Server) : list (string * string) :=
  [("status", "ok");
   ("service", "Project Swivel PTY engine");
   ("timestamp", now)].

End Relay.

Arguments Server Pty : clear implicits.

(** ** Vocabulary of the properties *)

Section Properties.
Context {Pty : Type} `{!NodePty Pty}.

(** The relation between [pty] and [terminalBackend] that the code
    maintains. *)
Record consistent (b : BackendState) : Prop := {
  on_node_pty : terminalBackend b = NodePtyBackend -> pty b = NodePtyModule;
  on_wsl : terminalBackend b = WslFallback -> pty b = FallbackModule;
  loaded : pty b = FallbackModule -> fallbackPty b = true
}.

(** Does the mechanism behind a strategy work on this attempt? *)
Definition works (o : Outcomes) (b : Backend) : bool :=
  match b with
  | NodePtyBackend => nodePtySpawns o
  | WslFallback => wslSpawns o
  | PowershellChild => powershellSpawns o
  end.

(** Attempts follow the demotion path: each one is strictly further
    down than the one before. *)
Definition demoting (tried : list Backend) : Prop :=
  StronglySorted (fun a b => rank a < rank b) tried.

Definition is_pipe (h : Handle Pty) : bool :=
  match h with
  | Native _ => false
  | _ => true
  end.

(** The subscriber slot of a pipe-based handle. *)
Definition subscriber (h : Handle Pty) : option string :=
  match h with
  | Native _ => None
  | Wsl p => PtyWslFallback.onDataCallback p
  | PowerShell p => PowerShellFallback.dataHandler p
  end.

Definition child_of (h : Handle Pty) : option ChildProcess :=
  match h with
  | Native _ => None
  | Wsl p => Some (PtyWslFallback.process p)
  | PowerShell p => Some (PowerShellFallback.child p)
  end.

(** The chunks a pipe-based handle's process has been given on its
    input stream. *)
Definition received (h : Handle Pty) : list string :=
  match child_of h with
  | Some c => stdin c
  | None => []
  end.

(** [child.killed] of a pipe-based handle. *)
Definition signalled (h : Handle Pty) : bool :=
  match child_of h with
  | Some c => killed c
  | None => false
  end.

(** The bytes that have reached the process's input stream. *)
Definition bytes_received (h : Handle Pty) : Buffer :=
  flat_map bytes_of_string (received h).

Definition writable (h : Handle Pty) : bool :=
  match child_of h with
  | Some c => stdin_writable c
  | None => false
  end.

Definition exit_notice_of (h : Handle Pty) : string :=
  match h with
  | Native _ => ""
  | Wsl _ => PtyWslFallback.exit_notice
  | PowerShell _ => PowerShellFallback.exit_notice
  end.

(** The socket [id]'s listeners write to the handle [ref]. *)
Definition bound (s : Server Pty) (id : string) (ref : nat) : Prop :=
  sockets s !! id ≫= ptyProcess = Some ref.

Definition emitted_on (s : Server Pty) (id : string) : list string :=
  match sockets s !! id with
  | Some k => emitted k
  | None => []
  end.

(** Socket.IO gives every connection a new id. *)
Definition accepted (ev : Event) (s : Server Pty) : Prop :=
  match ev with
  | Connection id _ => sockets s !! id = None
  | _ => True
  end.

(** States of a running service: booted, then any events. *)
Inductive reachable (isWindows : bool) : Server Pty -> Prop :=
| reach_boot nodePtyImports o s0 :
    boot isWindows nodePtyImports o = Ok s0 ->
    reachable isWindows s0
| reach_step ev s s' :
    reachable isWindows s ->
    accepted ev s ->
    step isWindows ev s = Ok s' ->
    reachable isWindows s'.

(** Once a pipe-based handle's process has exited, its input stream is
    no longer writable. *)
Definition sane (h : Handle Pty) : Prop :=
  forall c, child_of h = Some c -> exited c = true -> stdin_writable c = false.

(** A pipe-based handle forwards its output to socket [id]. *)
Definition slot_ok (id : string) (h : Handle Pty) : Prop :=
  is_pipe h = true -> subscriber h = Some id.

Record invariant (s : Server Pty) : Prop := {
  inv_backend : consistent (backend s);
  inv_registry : forall id ref,
    activePtys s !! id = Some ref -> bound s id ref;
  inv_bound : forall id ref,
    bound s id ref ->
    exists h, heap s !! ref = Some h /\ slot_ok id h;
  inv_exited : Forall sane (heap s)
}.

(** Runs in which every event is accepted and no listener throws. *)
Inductive trace (isWindows : bool) : Server Pty -> list Event -> Server Pty -> Prop :=
| trace_nil s : trace isWindows s [] s
| trace_cons ev evs s s1 s' :
    accepted ev s ->
    step isWindows ev s = Ok s1 ->
    trace isWindows s1 evs s' ->
    trace isWindows s (ev :: evs) s'.

(** What the ['terminal.input'] listener of socket [id] passes to
    [write] along a list of events, in order. *)
Fixpoint inputs_of (id : string) (evs : list Event) : list string :=
  match evs with
  | [] => []
  | TerminalInput id' data :: evs' =>
      (if bool_decide (id' = id) && truthy data
       then [input_string data] else [])
      ++ inputs_of id evs'
  | _ :: evs' => inputs_of id evs'
  end.

(** Socket [id] writes to the pipe-based handle [ref], whose input
    stream is open and has been given [log] so far. *)
Definition carries (s : Server Pty) (id : string) (ref : nat)
    (log : list string) : Prop :=
  bound s id ref
  /\ exists h, heap s !! ref = Some h /\ is_pipe h = true
               /\ writable h = true /\ received h = log.

(** *** Events seen by one handle *)

Inductive HandleEvent :=
| Output (from : Stream) (chunk : Buffer)
| Exit
| Subscribe (callback : string).

(** The callback invocations a handle makes along a list of events. *)
Fixpoint calls (evs : list HandleEvent) (h : Handle Pty) : list (Call string) :=
  match evs with
  | [] => []
  | Output from chunk :: evs' =>
      let '(h', cs) := handle_data from chunk h in cs ++ calls evs' h'
  | Exit :: evs' =>
      let '(h', cs) := handle_exit h in cs ++ calls evs' h'
  | Subscribe callback :: evs' => calls evs' (handle_onData callback h)
  end.

(** What a single replaceable subscriber slot promises: an output
    chunk or the exit notice goes to the subscriber registered last,
    and to nobody when there is none. *)
Definition slot_of (sub : option string) (data : string) : list (Call string) :=
  match sub with
  | Some callback => [(callback, data)]
  | None => []
  end.


End Properties.

(** ** Concrete hosts and scenarios *)

(** A node-pty whose handles do nothing; it stands in where a scenario
    never reaches the native strategy's behaviour. *)
#[local] Instance inert_node_pty : NodePty unit := {|
  np_spawn := tt;
  np_onData := fun _ n => n;
  np_write := fun _ n => (n, None);
  np_kill := fun n => (n, None);
  np_data := fun _ n => (n, []);
  np_exit := fun n => (n, [])
|}.

Definition all_work : Outcomes :=
  {| nodePtySpawns := true; fallbackImports := true;
     wslSpawns := true; powershellSpawns := true |}.

Definition no_native : Outcomes :=
  {| nodePtySpawns := false; fallbackImports := true;
     wslSpawns := true; powershellSpawns := true |}.

Definition only_powershell : Outcomes :=
  {| nodePtySpawns := false; fallbackImports := true;
     wslSpawns := false; powershellSpawns := true |}.

Definition nothing_works : Outcomes :=
  {| nodePtySpawns := false; fallbackImports := true;
     wslSpawns := false; powershellSpawns := false |}.

Definition fresh (b : BackendState) : Server unit :=
  {| backend := b; heap := []; activePtys := ∅; sockets := ∅ |}.

(** A Windows host on which node-pty failed to load at startup. *)
Definition windows_without_node_pty : Server unit :=
  fresh {| pty := FallbackModule; fallbackPty := true;
           terminalBackend := WslFallback |}.

Definition after (isWindows : bool) (evs : list (Event))
    (s : Server unit) : Server unit :=
  match run isWindows evs s with
  | Ok s' => s'
  | Throw _ => s
  end.

(** A node-pty double for the scenarios that do reach the native
    strategy. It records what the relay asks of a handle, and it is
    strict about a handle whose terminal has exited: [write] and [kill]
    raise from then on. *)
Record StrictPty := {
  sp_exited : bool;
  sp_written : list string;
  sp_kills : nat;
  sp_subscribers : list string
}.

Definition strict_node_pty : NodePty StrictPty := {|
  np_spawn := {| sp_exited := false; sp_written := []; sp_kills := 0;
                 sp_subscribers := [] |};
  np_onData := fun callback n =>
    {| sp_exited := sp_exited n; sp_written := sp_written n;
       sp_kills := sp_kills n;
       sp_subscribers := sp_subscribers n ++ [callback] |};
  np_write := fun data n =>
    if sp_exited n then (n, Some NodePtyFailure)
    else ({| sp_exited := sp_exited n; sp_written := sp_written n ++ [data];
             sp_kills := sp_kills n; sp_subscribers := sp_subscribers n |},
          None);
  np_kill := fun n =>
    ({| sp_exited := sp_exited n; sp_written := sp_written n;
        sp_kills := S (sp_kills n); sp_subscribers := sp_subscribers n |},
     if sp_exited n then Some NodePtyFailure else None);
  np_data := fun chunk n =>
    (n, map (fun callback => (callback, toString chunk)) (sp_subscribers n));
  np_exit := fun n =>
    ({| sp_exited := true; sp_written := sp_written n;
        sp_kills := sp_kills n; sp_subscribers := sp_subscribers n |}, [])
|}.

(** A host on which node-pty loaded at startup, before any connection. *)
Definition strict_host : Server StrictPty :=
  {| backend := initial_backend; heap := []; activePtys := ∅; sockets := ∅ |}.

Definition strict_after (isWindows : bool) (evs : list Event)
    (s : Server StrictPty) : Server StrictPty :=
  match @run StrictPty strict_node_pty isWindows evs s with
  | Ok s' => s'
  | Throw _ => s
  end.

(** ** Further vocabulary: handles, output and session life cycle *)

Section MoreProperties.
Context {Pty : Type} `{!NodePty Pty}.

(** The strategy that produced a handle. *)
Definition kind_of (h : Handle Pty) : Backend :=
  match h with
  | Native _ => NodePtyBackend
  | Wsl _ => WslFallback
  | PowerShell _ => PowershellChild
  end.

(** The executable and the arguments behind a pipe-based handle. *)
Definition command_line (h : Handle Pty) : option (string * list string) :=
  match child_of h with
  | Some c => Some (spawnfile c, spawnargs c)
  | None => None
  end.

(** A pipe-based handle as [spawn] returns it: nobody subscribed, the
    process running and not signalled, its input stream open and
    untouched. *)
Definition pristine (h : Handle Pty) : Prop :=
  subscriber h = None
  /\ forall c, child_of h = Some c ->
       killed c = false /\ exited c = false
       /\ stdin_writable c = true /\ stdin c = [].

(** The command line the relay gives each kind of pipe-based handle on a
    host. *)
Definition expected_command_line (isWindows : bool) (h : Handle Pty)
    : option (string * list string) :=
  match h with
  | Native _ => None
  | Wsl _ => Some (if isWindows then ("wsl.exe", ["bash"]) else ("bash", []))
  | PowerShell _ => Some ("powershell.exe", [])
  end.

(** What the process behind handle [ref] makes its subscriber receive
    along a list of events: each chunk of either stream, converted, and
    the exit notice at the first exit ([gone] tells whether the process
    has exited already). *)
Fixpoint outputs_of (notice : string) (ref : nat) (gone : bool)
    (evs : list Event) : list string :=
  match evs with
  | [] => []
  | ProcessData r _ chunk :: evs' =>
      (if bool_decide (r = ref) then [toString chunk] else [])
      ++ outputs_of notice ref gone evs'
  | ProcessExit r :: evs' =>
      if bool_decide (r = ref) then
        (if gone then [] else [notice]) ++ outputs_of notice ref true evs'
      else outputs_of notice ref gone evs'
  | _ :: evs' => outputs_of notice ref gone evs'
  end.

(** No handle of the service comes from node-pty. *)
Definition all_pipe (s : Server Pty) : Prop :=
  Forall (fun h => is_pipe h = true) (heap s).

(** Every pipe-based handle forwards to a socket whose listeners are
    bound to that very handle. *)
Definition owned (s : Server Pty) : Prop :=
  forall ref h, heap s !! ref = Some h -> is_pipe h = true ->
    exists id, subscriber h = Some id /\ bound s id ref.

(** No two sockets have their listeners bound to the same handle. *)
Definition separate (s : Server Pty) : Prop :=
  forall id1 id2 ref, bound s id1 ref -> bound s id2 ref -> id1 = id2.

(** The relay signals the processes of torn-down sessions and no
    others. *)
Definition lifecycle (s : Server Pty) : Prop :=
  forall id ref h,
    bound s id ref -> heap s !! ref = Some h -> is_pipe h = true ->
    match activePtys s !! id with
    | Some _ => signalled h = false
    | None => signalled h = true \/ has_exited h = true
    end.

End MoreProperties.

(** ** Further vocabulary: what an input event carries, and what a
    write on a pipe can raise *)

(** Socket.IO hands the ['terminal.input'] listener whatever the client
    sent: a string or a Buffer, or any other JSON value (a number, a
    boolean, null, an object, an array), of which the listener looks at
    the truthiness only. *)
Inductive JsValue :=
| Chunk (data : Payload)
| NotAChunk (truthiness : bool).

Definition js_truthy (v : JsValue) : bool :=
  match v with
  | Chunk data => truthy data
  | NotAChunk truthiness => truthiness
  end.

(** What the listener passes to [write]: a string, or the value as it
    came when it is neither a string nor a Buffer. *)
Inductive WriteArg :=
| AString (data : string)
| NotAString.

(* [Buffer.isBuffer(data) ? data.toString() : data] *)
Definition write_arg (v : JsValue) : WriteArg :=
  match v with
  | Chunk data => AString (input_string data)
  | NotAChunk _ => NotAString
  end.

(** What [child.stdin.write] can raise: a [TypeError] for an argument
    that is neither a string nor a Buffer, thrown by the call; and
    [EPIPE] when the process no longer reads its input, an ['error']
    event of the stream, on which neither file registers a listener. *)
Inductive Raised :=
| InvalidChunk
| BrokenPipe.

(* [child.stdin.write(arg)] on a writable stream; [reading] tells
   whether the process still holds its end of the pipe. *)
Definition stdin_write_checked (reading : bool) (arg : WriteArg)
    (c : ChildProcess) : ChildProcess * option Raised :=
  match arg with
  | NotAString => (c, Some InvalidChunk)
  | AString data =>
      if reading then (stdin_write data c, None) else (c, Some BrokenPipe)
  end.

(* [write(data)] of [PtyProcess] and of the PowerShell handle alike:
   [if (stdin.writable) stdin.write(data)], on the handle's process. *)
Definition pipe_write (reading : bool) (arg : WriteArg) (c : ChildProcess)
    : ChildProcess * option Raised :=
  if stdin_writable c then stdin_write_checked reading arg c else (c, None).

(* The ['terminal.input'] listener of a socket bound to a pipe-based
   handle, on the handle's process:
   [if (data) ptyProcess.write(Buffer.isBuffer(data) ? data.toString() : data)]. *)
Definition input_listener (reading : bool) (v : JsValue) (c : ChildProcess)
    : ChildProcess * option Raised :=
  if js_truthy v then pipe_write reading (write_arg v) c else (c, None).

Section AnyInput.
Context {Pty : Type} `{!NodePty Pty}.

(** What one ['terminal.input'] event leads to: the listener returns
    and nothing is raised, or an error is raised that nothing catches
    (an exception that escapes the listener, or an ['error'] event on a
    stream without listener). What node-pty's [write] does with a value
    that is not a string is not modelled. *)
Inductive Heard :=
| Returned (s : Server Pty)
| Uncaught (r : Raised)             (* from [stdin.write] of a pipe-based handle *)
| UncaughtNative (e : Error)        (* from node-pty's [write] *)
| NativeGivenOther.

(* [ptyProcess.write(arg)] on the handle [ref], for any argument. *)
Definition write_any (reading : bool) (arg : WriteArg) (ref : nat)
    (h : Handle Pty) (s : Server Pty) : Heard :=
  let stored h' :=
    {| backend := backend s; heap := <[ref := h']> (heap s);
       activePtys := activePtys s; sockets := sockets s |} in
  match h with
  | Native n =>
      match arg with
      | AString data =>
          let '(n', e) := np_write data n in
          match e with
          | None => Returned (stored (Native n'))
          | Some err => UncaughtNative err
          end
      | NotAString => NativeGivenOther
      end
  | Wsl p =>
      let '(c, r) := pipe_write reading arg (PtyWslFallback.process p) in
      match r with
      | None =>
          Returned (stored (Wsl {| PtyWslFallback.process := c;
                                   PtyWslFallback.onDataCallback :=
                                     PtyWslFallback.onDataCallback p |}))
      | Some raised => Uncaught raised
      end
  | PowerShell p =>
      let '(c, r) := pipe_write reading arg (PowerShellFallback.child p) in
      match r with
      | None =>
          Returned (stored (PowerShell
                              {| PowerShellFallback.child := c;
                                 PowerShellFallback.dataHandler :=
                                   PowerShellFallback.dataHandler p |}))
      | Some raised => Uncaught raised
      end
  end.

(** [socket.on('terminal.input', (data) => ...)] for any value the
    event carries. *)
Definition terminal_input_any (reading : bool) (id : string) (v : JsValue)
    (s : Server Pty) : Heard :=
  match sockets s !! id ≫= ptyProcess with
  | None => Returned s
  | Some ref =>
      if js_truthy v then
        match heap s !! ref with
        | None => Returned s
        | Some h => write_any reading (write_arg v) ref h s
        end
      else Returned s
  end.

End AnyInput.

(** ** Further vocabulary: well-formed UTF-8 *)

(** Unicode scalar values: code points that are not surrogates. *)
Definition scalar_value (cp : N) : bool :=
  ((cp <? 0xD800) || ((0xDFFF <? cp) && (cp <? 0x110000)))%N.

(** The decoder run over a prefix of its input: what it has produced and
    the state it is left in. *)
Fixpoint feed (st : option Pending) (bs : Buffer) : list N * option Pending :=
  match bs with
  | [] => ([], st)
  | b :: bs' =>
      let '(out, st') :=
        match st with
        | None => lead b
        | Some p => continuation p b
        end in
      let '(out', st'') := feed st' bs' in
      (out ++ out', st'')
  end.

(** The bytes of a multi-byte encoding before its last one; they depend
    on the code point without its six low bits only. *)
Definition encode_head (hi : N) : list N :=
  (if hi <? 0x20 then [N.lor 0xC0 hi]
   else if hi <? 0x400 then
     [N.lor 0xE0 (N.shiftr hi 6); N.lor 0x80 (N.land hi 0x3F)]
   else
     [N.lor 0xF0 (N.shiftr hi 12);
      N.lor 0x80 (N.land (N.shiftr hi 6) 0x3F);
      N.lor 0x80 (N.land hi 0x3F)])%N.

(** Tests run over finite ranges: a code point below 128 decodes from
    its one byte; the head of a multi-byte encoding leaves the decoder
    waiting for one more byte, holding the high bits; a last byte is in
    range and carries its six bits. *)
Definition ascii_decodes (cp : N) : bool :=
  match feed None (encode cp) with
  | ([c], None) => (c =? cp)%N && forallb (fun b => b <? 256)%N (encode cp)
  | _ => false
  end.

Definition head_decodes (hi : N) : bool :=
  match feed None (encode_head hi) with
  | ([], Some p) =>
      Nat.eqb (remaining p) 1 && (code_point p =? hi)%N
      && (lower p =? 0x80)%N && (upper p =? 0xBF)%N
      && forallb (fun b => b <? 256)%N (encode_head hi)
  | _ => false
  end.

Definition tail_decodes (d : N) : bool :=
  ((0x80 <=? N.lor 0x80 d) && (N.lor 0x80 d <=? 0xBF)
   && (N.land (N.lor 0x80 d) 0x3F =? d) && (N.lor 0x80 d <? 256))%N.

(** A test applied to every number below a bound. *)
Definition all_below (n : N) (p : N -> bool) : bool :=
  (N.iter n (fun st : N * bool => (N.succ st.1, st.2 && p st.1)) (0%N, true)).2.

(** ** server/app.js: tokens, the user store and the protected routes *)

From Stdlib Require DecimalString.

Module App.

Local Open Scope string_scope.

(** The jsonwebtoken and bcrypt libraries, as app.js calls them. [now]
    is the clock when the call is made; [salt] is the randomness
    [bcrypt.hash] draws. *)
Class Libraries := {
  jwt_sign : N -> string -> string;
  jwt_verify : N -> string -> option string;
  bcrypt_hash : string -> string -> option string;
  bcrypt_compare : string -> string -> option bool
}.

Record User := {
  id : string;
  email : string;
  password : string;
  name : string
}.

(** [users], with the sample user set at start-up. *)
Definition sample_user : User :=
  {| id := "1"; email := "test@example.com";
     password := "$2b$10$ZJ6PqKqtHqN.hGpTYLk3XeV4vUeKH.MlD9NpmD8PqKvxAQrMqNgXi";
     name := "Test User" |}.

Definition initial_users : gmap string User :=
  {[ "test@example.com" := sample_user ]}.

(** [String.prototype.split(' ')]. *)
Fixpoint split_space (s : string) : list string :=
  match s with
  | EmptyString => [EmptyString]
  | String c s' =>
      if Ascii.eqb c " "%char then EmptyString :: split_space s'
      else match split_space s' with
           | [] => [String c EmptyString]
           | piece :: pieces => String c piece :: pieces
           end
  end.

(** A string without a space character. *)
Fixpoint space_free (s : string) : bool :=
  match s with
  | EmptyString => true
  | String c s' => negb (Ascii.eqb c " "%char) && space_free s'
  end.

(** JavaScript values that may be [undefined] or a string: [!v]. *)
Definition falsy (v : option string) : bool :=
  match v with
  | None => true
  | Some s => String.eqb s ""
  end.

(** [authHeader && authHeader.split(' ')[1]] *)
Definition header_token (authHeader : option string) : option string :=
  match authHeader with
  | None => None
  | Some a => if String.eqb a "" then Some "" else split_space a !! 1%nat
  end.

Inductive Body :=
| Errors (errors : list string)
| Error (error : string)
| Registered (token : string) (user_id user_email user_name : string)
| LoggedIn (token : string) (user_id user_email user_name : string)
| Token (token : string)
| ProtectedData (userId : string)
| Executed (command result : string).

Record Response := { status : nat; body : Body }.

Section Routes.
Context `{!Libraries}.

Definition generateToken (now : N) (userId : string) : string :=
  jwt_sign now userId.

Definition verifyToken (now : N) (token : string) : option string :=
  jwt_verify now token.

(** [authenticateToken]: a response, or the [userId] handed to the
    route. *)
Definition authenticateToken (now : N) (authHeader : option string)
    : Response + string :=
  let token := header_token authHeader in
  if falsy token then
    inl {| status := 401; body := Error "Access token required" |}
  else
    match verifyToken now (default "" token) with
    | None => inl {| status := 403; body := Error "Invalid or expired token" |}
    | Some userId => inr userId
    end.

(** The Socket.IO middleware [io.use]: the error passed to [next], or
    the [userId] stored on the socket. *)
Definition socket_auth (now : N) (token : option string) : string + string :=
  if falsy token then inl "Authentication required"
  else match verifyToken now (default "" token) with
       | None => inl "Invalid token"
       | Some userId => inr userId
       end.

(** A request body after the validation chain has run: the validation
    errors and the sanitised fields. *)
Record Credentials := {
  errors : list string;
  req_email : string;
  req_password : string;
  req_name : string
}.

(** [Date.now().toString()] *)
Definition clock_string (now : N) : string :=
  DecimalString.NilZero.string_of_uint (N.to_uint now).

(** The two handlers that wait for bcrypt run in two turns of the event
    loop: up to their [await], and after it. In between, other requests
    are served. A handler suspended at its [await] keeps what its
    closure holds. *)
Inductive Suspended :=
| Hashing (req : Credentials)                 (* register, at [bcrypt.hash] *)
| Comparing (req : Credentials) (user : User). (* login, at [bcrypt.compare] *)

(** [users], the suspended handlers by request number, and the number
    of the next request to be suspended. *)
Record Store := {
  users : gmap string User;
  suspended : gmap nat Suspended;
  tickets : nat
}.

Definition initial_store : Store :=
  {| users := initial_users; suspended := ∅; tickets := 0 |}.

(** What a client gets in one turn: the 429 of the rate limiter, a
    response of a handler, or nothing yet. *)
Inductive Answer :=
| Limited
| Answered (res : Response)
| Awaiting (ticket : nat)
| Idle.

Definition suspend (k : Suspended) (st : Store) : Answer * Store :=
  (Awaiting (tickets st),
   {| users := users st;
      suspended := <[tickets st := k]> (suspended st);
      tickets := S (tickets st) |}).

(** [POST /api/auth/register], up to [await bcrypt.hash(password, 10)]. *)
Definition register_begin (req : Credentials) (st : Store) : Answer * Store :=
  match errors req with
  | _ :: _ => (Answered {| status := 400; body := Errors (errors req) |}, st)
  | [] =>
      match users st !! req_email req with
      | Some _ =>
          (Answered {| status := 409; body := Error "User already exists" |}, st)
      | None => suspend (Hashing req) st
      end
  end.

(** [POST /api/auth/register], from the [await] on. [hashed] is what
    the promise settled with ([None] when it was rejected), [now] is
    [Date.now()], and [signed_at] the clock when the token is signed. *)
Definition register_resume (now signed_at : N) (hashed : option string)
    (req : Credentials) (us : gmap string User) : Response * gmap string User :=
  match hashed with
  | None => ({| status := 500; body := Error "Registration failed" |}, us)
  | Some hashedPassword =>
      let userId := clock_string now in
      ({| status := 201;
          body := Registered (generateToken signed_at userId) userId
                    (req_email req) (req_name req) |},
       <[req_email req := {| id := userId; email := req_email req;
                             password := hashedPassword;
                             name := req_name req |}]> us)
  end.

(** [POST /api/auth/login], up to [await bcrypt.compare(...)]. *)
Definition login_begin (req : Credentials) (st : Store) : Answer * Store :=
  match errors req with
  | _ :: _ => (Answered {| status := 400; body := Errors (errors req) |}, st)
  | [] =>
      match users st !! req_email req with
      | None =>
          (Answered {| status := 401; body := Error "Invalid credentials" |}, st)
      | Some user => suspend (Comparing req user) st
      end
  end.

(** [POST /api/auth/login], from the [await] on. *)
Definition login_resume (signed_at : N) (validPassword : option bool)
    (user : User) : Response :=
  match validPassword with
  | None => {| status := 500; body := Error "Login failed" |}
  | Some false => {| status := 401; body := Error "Invalid credentials" |}
  | Some true =>
      {| status := 200;
         body := LoggedIn (generateToken signed_at (id user)) (id user)
                   (email user) (name user) |}
  end.

(** [POST /api/auth/refresh] *)
Definition refresh (now : N) (authHeader : option string) : Response :=
  match authenticateToken now authHeader with
  | inl rejected => rejected
  | inr userId => {| status := 200; body := Token (generateToken now userId) |}
  end.

(** [GET /api/data] *)
Definition data (now : N) (authHeader : option string) : Response :=
  match authenticateToken now authHeader with
  | inl rejected => rejected
  | inr userId => {| status := 200; body := ProtectedData userId |}
  end.

Inductive Request :=
| Register (req : Credentials)
| Login (req : Credentials)
| Refresh (now : N) (authHeader : option string)
| Data (now : N) (authHeader : option string).

(** One turn of the event loop: a request under [/api/] that the rate
    limiter answers itself; a request that it lets through to its
    handler; the promise of a suspended handler settles ([salt] is the
    randomness [bcrypt.hash] drew). *)
Inductive Turn :=
| Refuse
| Arrive (r : Request)
| Settle (ticket : nat) (now signed_at : N) (salt : string).

Definition arrive (r : Request) (st : Store) : Answer * Store :=
  match r with
  | Register req => register_begin req st
  | Login req => login_begin req st
  | Refresh now authHeader => (Answered (refresh now authHeader), st)
  | Data now authHeader => (Answered (data now authHeader), st)
  end.

Definition settle (ticket : nat) (now signed_at : N) (salt : string)
    (st : Store) : Answer * Store :=
  match suspended st !! ticket with
  | None => (Idle, st)
  | Some (Hashing req) =>
      let '(res, us) :=
        register_resume now signed_at (bcrypt_hash salt (req_password req))
                        req (users st) in
      (Answered res,
       {| users := us; suspended := delete ticket (suspended st);
          tickets := tickets st |})
  | Some (Comparing req user) =>
      (Answered (login_resume signed_at
                   (bcrypt_compare (req_password req) (password user)) user),
       {| users := users st; suspended := delete ticket (suspended st);
          tickets := tickets st |})
  end.

Definition turn (t : Turn) (st : Store) : Answer * Store :=
  match t with
  | Refuse => (Limited, st)
  | Arrive r => arrive r st
  | Settle ticket now signed_at salt => settle ticket now signed_at salt st
  end.

(** The turns of a run, in order. *)
Fixpoint serve (ts : list Turn) (st : Store) : list Answer * Store :=
  match ts with
  | [] => ([], st)
  | t :: ts' =>
      let '(a, st1) := turn t st in
      let '(answers, st2) := serve ts' st1 in
      (a :: answers, st2)
  end.

(** A registration for [e] is suspended at its [await]. *)
Definition in_flight (e : string) (st : Store) : Prop :=
  exists ticket req,
    suspended st !! ticket = Some (Hashing req) /\ req_email req = e.

(** The turn settles the promise of handler [ticket]. *)
Definition settles (ticket : nat) (t : Turn) : bool :=
  match t with
  | Settle ticket' _ _ _ => bool_decide (ticket' = ticket)
  | _ => false
  end.

End Routes.

(** A stand-in for the two libraries: the token is the user id after a
    dot, the hash is the password after a dollar sign. *)
Definition toy_libraries : Libraries := {|
  jwt_sign := fun _ userId => "." ++ userId;
  jwt_verify := fun _ token =>
    match token with
    | String "."%char userId => Some userId
    | _ => None
    end;
  bcrypt_hash := fun _ p => Some ("$" ++ p);
  bcrypt_compare := fun p hashed => Some (String.eqb hashed ("$" ++ p))
|}.

End App.

(** Users for the scenarios; the second Alice has another password. *)
Definition alice : App.Credentials :=
  {| App.errors := []; App.req_email := "alice@example.com";
     App.req_password := "secret1"; App.req_name := "Alice" |}.

Definition bob : App.Credentials :=
  {| App.errors := []; App.req_email := "bob@example.com";
     App.req_password := "secret2"; App.req_name := "Bob" |}.

Definition other_alice : App.Credentials :=
  {| App.errors := []; App.req_email := "alice@example.com";
     App.req_password := "hunter22"; App.req_name := "Mallory" |}.

Definition mallory : App.Credentials :=
  {| App.errors := []; App.req_email := "test@example.com";
     App.req_password := "hunter22"; App.req_name := "Mallory" |}.

(** * Results *)

(** ** The fallback chain *)

Section SpawnFacts.
Context {Pty : Type} `{!NodePty Pty}.

(* Every combination of host, outcomes and backend state. *)
Ltac enumerate isWindows o b :=
  destruct isWindows, o as [[] [] [] []], b as [[] [] []].

Ltac absurd_state H :=
  destruct H as [H1 H2 H3]; cbn in H1, H2, H3;
  first [ by specialize (H1 eq_refl)
        | by specialize (H2 eq_refl)
        | by specialize (H3 eq_refl) ].

Lemma startup_consistent isWindows nodePtyImports o b :
  startup isWindows nodePtyImports o = Ok b -> consistent b.
Proof.
  destruct isWindows, nodePtyImports, o as [? [] ? ?];
    cbv; intros [= <-]; by split.
Qed.

Lemma spawnPty_consistent isWindows o b :
  consistent b -> consistent (spawnPty (Pty:=Pty) isWindows o b).1.2.
Proof.
  intros Hc. enumerate isWindows o b; try absurd_state Hc; split; by cbn.
Qed.

Lemma spawnPty_rank isWindows o b :
  consistent b ->
  rank (terminalBackend b)
  <= rank (terminalBackend (spawnPty (Pty:=Pty) isWindows o b).1.2).
Proof.
  intros Hc. enumerate isWindows o b; try absurd_state Hc; vm_compute; lia.
Qed.

Lemma spawnPty_pty_stable isWindows o b :
  pty b = FallbackModule ->
  pty (spawnPty (Pty:=Pty) isWindows o b).1.2 = FallbackModule.
Proof.
  intros Hp. enumerate isWindows o b; try discriminate Hp; reflexivity.
Qed.

Lemma spawnPty_demoting isWindows o b :
  consistent b ->
  demoting (spawnPty (Pty:=Pty) isWindows o b).2
  /\ 1 <= length (spawnPty (Pty:=Pty) isWindows o b).2 <= 3.
Proof.
  intros Hc. enumerate isWindows o b; try absurd_state Hc;
    (split; [ vm_compute; repeat constructor | vm_compute; lia ]).
Qed.

Lemma spawnPty_first isWindows o b :
  exists rest,
    (spawnPty (Pty:=Pty) isWindows o b).2 = strategy_of (pty b) :: rest.
Proof. enumerate isWindows o b; cbn; eauto. Qed.

Lemma spawnPty_throw isWindows o b e :
  (spawnPty (Pty:=Pty) isWindows o b).1.1 = Throw e ->
  Forall (fun t => works o t = false) (spawnPty (Pty:=Pty) isWindows o b).2.
Proof.
  enumerate isWindows o b; cbn; intros [=]; repeat constructor.
Qed.

Lemma spawnPty_throw_windows o b e :
  consistent b ->
  terminalBackend b <> PowershellChild ->
  (spawnPty (Pty:=Pty) true o b).1.1 = Throw e ->
  last (spawnPty (Pty:=Pty) true o b).2 = Some PowershellChild.
Proof.
  intros Hc Hb. destruct o as [[] [] [] []], b as [[] [] []];
    try absurd_state Hc; try (by destruct Hb); cbn; by intros [=].
Qed.

Lemma spawnPty_throw_elsewhere o b e :
  (spawnPty (Pty:=Pty) false o b).1.1 = Throw e ->
  PowershellChild ∉ (spawnPty (Pty:=Pty) false o b).2.
Proof.
  destruct o as [[] [] [] []], b as [[] [] []];
    intros He; vm_compute in He; try discriminate He; clear He;
    rewrite list_elem_of_In; vm_compute; intuition discriminate.
Qed.

End SpawnFacts.

(** ** Handles: what each operation leaves alone *)

Section HandleFacts.
Context {Pty : Type} `{!NodePty Pty}.

Lemma write_is_pipe data (h : Handle Pty) :
  is_pipe (handle_write data h).1 = is_pipe h.
Proof. destruct h; cbn; [by destruct (np_write _ _)|done..]. Qed.

Lemma write_subscriber data (h : Handle Pty) :
  subscriber (handle_write data h).1 = subscriber h.
Proof.
  destruct h as [n|p|p]; cbn.
  - by destruct (np_write _ _).
  - unfold PtyWslFallback.write. by destruct (stdin_writable _).
  - unfold PowerShellFallback.write. by destruct (stdin_writable _).
Qed.

Lemma write_sane data (h : Handle Pty) : sane h -> sane (handle_write data h).1.
Proof.
  destruct h as [n|p|p]; cbn.
  - destruct (np_write _ _). by intros _ c.
  - unfold PtyWslFallback.write. destruct (stdin_writable _) eqn:E; [|done].
    intros Hs c [= <-]; cbn. intros He. exact (Hs _ eq_refl He).
  - unfold PowerShellFallback.write. destruct (stdin_writable _) eqn:E; [|done].
    intros Hs c [= <-]; cbn. intros He. exact (Hs _ eq_refl He).
Qed.

Lemma write_pipe_no_error data (h : Handle Pty) :
  is_pipe h = true -> (handle_write data h).2 = None.
Proof. by destruct h. Qed.

Lemma kill_is_pipe (h : Handle Pty) : is_pipe (handle_kill h).1 = is_pipe h.
Proof. destruct h; cbn; [by destruct (np_kill _)|done..]. Qed.

Lemma kill_subscriber (h : Handle Pty) :
  subscriber (handle_kill h).1 = subscriber h.
Proof.
  destruct h as [n|p|p]; cbn.
  - by destruct (np_kill _).
  - unfold PtyWslFallback.kill. by destruct (negb _).
  - unfold PowerShellFallback.kill. by destruct (negb _).
Qed.

Lemma child_kill_flags c :
  exited (child_kill c) = exited c
  /\ stdin_writable (child_kill c) = stdin_writable c
  /\ stdin (child_kill c) = stdin c.
Proof. by destruct c as [? ? ? [] ? ?]. Qed.

Lemma kill_sane (h : Handle Pty) : sane h -> sane (handle_kill h).1.
Proof.
  destruct h as [n|p|p]; cbn.
  - destruct (np_kill _). by intros _ c.
  - unfold PtyWslFallback.kill. destruct (negb _); [|done].
    intros Hs c [= <-]; cbn.
    destruct (child_kill_flags (PtyWslFallback.process p)) as (-> & -> & _).
    exact (Hs _ eq_refl).
  - unfold PowerShellFallback.kill. destruct (negb _); [|done].
    intros Hs c [= <-]; cbn.
    destruct (child_kill_flags (PowerShellFallback.child p)) as (-> & -> & _).
    exact (Hs _ eq_refl).
Qed.

Lemma kill_signals (h : Handle Pty) :
  is_pipe h = true -> has_exited h = false -> signalled (handle_kill h).1 = true.
Proof.
  destruct h as [n|[[f a k e w i] cb]|[[f a k e w i] cb]]; [done|..];
    cbn; intros _ ->; by destruct k.
Qed.

Lemma data_is_pipe from chunk (h : Handle Pty) :
  is_pipe (handle_data from chunk h).1 = is_pipe h.
Proof. destruct h; cbn; [by destruct (np_data _ _)|done..]. Qed.

Lemma data_pipe from chunk (h : Handle Pty) :
  is_pipe h = true -> (handle_data from chunk h).1 = h.
Proof. by destruct h. Qed.

Lemma data_sane from chunk (h : Handle Pty) :
  sane h -> sane (handle_data from chunk h).1.
Proof. destruct h; cbn; [destruct (np_data _ _); by intros _ c|done..]. Qed.

Lemma exit_is_pipe (h : Handle Pty) : is_pipe (handle_exit h).1 = is_pipe h.
Proof. destruct h; cbn; [by destruct (np_exit _)|done..]. Qed.

Lemma exit_subscriber (h : Handle Pty) :
  subscriber (handle_exit h).1 = subscriber h.
Proof. destruct h; cbn; [by destruct (np_exit _)|done..]. Qed.

Lemma exit_sane (h : Handle Pty) : sane (handle_exit h).1.
Proof.
  destruct h; cbn; [destruct (np_exit _); by intros c|..];
    by intros c [= <-].
Qed.

Lemma onData_subscriber id (h : Handle Pty) :
  is_pipe h = true -> subscriber (handle_onData id h) = Some id.
Proof. by destruct h. Qed.

Lemma onData_is_pipe id (h : Handle Pty) :
  is_pipe (handle_onData id h) = is_pipe h.
Proof. by destruct h. Qed.

Lemma spawned_sane isWindows o b (h : Handle Pty) id :
  (spawnPty isWindows o b).1.1 = Ok h -> sane (handle_onData id h).
Proof.
  destruct isWindows, o as [[] [] [] []], b as [[] [] []];
    intros He; vm_compute in He; try discriminate He;
    injection He as <-; intros c; cbn; intros [= <-]; done.
Qed.

End HandleFacts.

(** ** The invariant of running services *)

Section ServerFacts.
Context {Pty : Type} `{!NodePty Pty}.
Implicit Types (s : Server Pty) (h : Handle Pty).

Lemma heap_update_slot (l : list (Handle Pty)) ref h h' ref0 id :
  l !! ref = Some h ->
  is_pipe h' = is_pipe h -> subscriber h' = subscriber h ->
  (exists h0, l !! ref0 = Some h0 /\ slot_ok id h0) ->
  exists h0, <[ref := h']> l !! ref0 = Some h0 /\ slot_ok id h0.
Proof.
  intros Hl Hp Hs (h0 & Hl0 & Hok).
  destruct (decide (ref = ref0)) as [<-|Hne].
  - assert (h0 = h) as -> by congruence.
    exists h'. split.
    + apply list_lookup_insert_eq. by eapply lookup_lt_Some.
    + unfold slot_ok in *. by rewrite Hp, Hs.
  - exists h0. by rewrite list_lookup_insert_ne.
Qed.

Lemma socket_emit_ptyProcess id data (ss : gmap string Socket) id' :
  socket_emit id data ss !! id' ≫= ptyProcess = ss !! id' ≫= ptyProcess.
Proof.
  unfold socket_emit. rewrite lookup_alter.
  case_decide; [subst|done]. by destruct (ss !! id').
Qed.

Lemma run_calls_ptyProcess cs (ss : gmap string Socket) id :
  run_calls cs ss !! id ≫= ptyProcess = ss !! id ≫= ptyProcess.
Proof.
  revert ss. induction cs as [|c cs IH]; intros ss; [done|].
  cbn. by rewrite IH, socket_emit_ptyProcess.
Qed.

Lemma boot_invariant isWindows nodePtyImports o s0 :
  boot isWindows nodePtyImports o = Ok s0 -> invariant s0.
Proof.
  unfold boot. destruct (startup _ _ _) as [b|e] eqn:E; [|done].
  intros [= <-]. split; cbn.
  - by eapply startup_consistent.
  - intros id ref. by rewrite lookup_empty.
  - intros id ref. unfold bound; cbn. by rewrite lookup_empty.
  - constructor.
Qed.

Lemma connection_invariant isWindows id o s :
  invariant s -> sockets s !! id = None ->
  invariant (connection isWindows id o s).
Proof.
  intros [Hb Hr Hbd Hex] Hfresh.
  assert (Hnone : activePtys s !! id = None).
  { destruct (activePtys s !! id) as [ref|] eqn:E; [|done].
    apply Hr in E. unfold bound in E. by rewrite Hfresh in E. }
  pose proof (spawnPty_consistent isWindows o _ Hb) as Hb'.
  pose proof (spawned_sane isWindows o (backend s)) as Hsane.
  unfold connection.
  destruct (spawnPty isWindows o (backend s)) as [[[h|e] b'] tried];
    cbn in Hb', Hsane; split; cbn; try done.
  - intros id' ref'. rewrite lookup_insert. unfold bound; cbn.
    case_decide as Hd.
    + intros [= <-]. subst. by rewrite lookup_insert_eq.
    + intros Ha. rewrite lookup_insert_ne by done. by apply Hr.
  - intros id' ref'. unfold bound; cbn. rewrite lookup_insert.
    case_decide as Hd; cbn.
    + intros [= <-]. subst id'. eexists. split.
      * by apply list_lookup_middle.
      * intros Hp. apply onData_subscriber. by rewrite onData_is_pipe in Hp.
    + intros Ha. destruct (Hbd id' ref' Ha) as (h0 & Hl & Hok).
      exists h0. split; [by apply lookup_app_l_Some|done].
  - apply Forall_app. split; [done|]. constructor; [|constructor].
    by apply Hsane.
  - intros id' ref' Ha. unfold bound; cbn.
    rewrite lookup_insert_ne; [by apply Hr|]. congruence.
  - intros id' ref'. unfold bound; cbn. rewrite lookup_insert.
    case_decide; [done|]. apply Hbd.
Qed.

Lemma terminal_input_invariant id data s s' :
  invariant s -> terminal_input id data s = Ok s' -> invariant s'.
Proof.
  intros Hinv. unfold terminal_input.
  destruct (sockets s !! id ≫= ptyProcess) as [ref|]; [|by intros [= <-]].
  destruct (truthy data); [|by intros [= <-]].
  destruct (heap s !! ref) as [h|] eqn:Hh; [|by intros [= <-]].
  pose proof (write_is_pipe (input_string data) h) as Hp.
  pose proof (write_subscriber (input_string data) h) as Hs.
  pose proof (write_sane (input_string data) h) as Hsn.
  destruct (handle_write _ h) as [h' [e|]]; [done|]. intros [= <-].
  destruct Hinv as [Hb Hr Hbd Hex]. split; cbn; try done.
  - intros id' ref' Ha. eapply heap_update_slot; eauto.
  - apply Forall_insert; [done|]. apply Hsn.
    by eapply Forall_lookup_1 in Hex.
Qed.

Lemma disconnect_invariant id s : invariant s -> invariant (disconnect id s).
Proof.
  intros Hinv. unfold disconnect.
  destruct (sockets s !! id ≫= ptyProcess) as [r0|]; [|done].
  destruct (activePtys s !! id) as [ref|] eqn:Ha; [|done].
  destruct Hinv as [Hb Hr Hbd Hex]. split; cbn; try done.
  - intros id' ref'. rewrite lookup_delete. case_decide; [done|]. apply Hr.
  - intros id' ref' Hbound.
    destruct (heap s !! ref) as [h|] eqn:Hh; [|by apply Hbd].
    eapply heap_update_slot; eauto using kill_is_pipe, kill_subscriber.
  - destruct (heap s !! ref) as [h|] eqn:Hh; [|done].
    apply Forall_insert; [done|]. apply kill_sane.
    by eapply Forall_lookup_1 in Hex.
Qed.

Lemma process_data_invariant ref from chunk s :
  invariant s -> invariant (process_data ref from chunk s).
Proof.
  intros Hinv. unfold process_data.
  destruct (heap s !! ref) as [h|] eqn:Hh; [|done].
  pose proof (data_is_pipe from chunk h) as Hp.
  pose proof (data_pipe from chunk h) as Hsame.
  pose proof (data_sane from chunk h) as Hsn.
  destruct (handle_data from chunk h) as [h' cs]. cbn in *.
  destruct Hinv as [Hb Hr Hbd Hex]. split; cbn; try done.
  - intros id ref' Ha. unfold bound; cbn.
    rewrite run_calls_ptyProcess. by apply Hr.
  - intros id ref'. unfold bound; cbn. rewrite run_calls_ptyProcess.
    intros Ha. eapply heap_update_slot; eauto.
    destruct (is_pipe h) eqn:E; [by rewrite Hsame|].
    destruct h', h; done.
  - apply Forall_insert; [done|]. apply Hsn.
    by eapply Forall_lookup_1 in Hex.
Qed.

Lemma process_exit_invariant ref s :
  invariant s -> invariant (process_exit ref s).
Proof.
  intros Hinv. unfold process_exit.
  destruct (heap s !! ref) as [h|] eqn:Hh; [|done].
  destruct (has_exited h); [done|].
  pose proof (exit_is_pipe h) as Hp.
  pose proof (exit_subscriber h) as Hs.
  pose proof (exit_sane h) as Hsn.
  destruct (handle_exit h) as [h' cs]. cbn in *.
  destruct Hinv as [Hb Hr Hbd Hex]. split; cbn; try done.
  - intros id ref' Ha. unfold bound; cbn.
    rewrite run_calls_ptyProcess. by apply Hr.
  - intros id ref'. unfold bound; cbn. rewrite run_calls_ptyProcess.
    intros Ha. eapply heap_update_slot; eauto.
  - by apply Forall_insert.
Qed.

Lemma step_invariant isWindows ev s s' :
  invariant s -> accepted ev s -> step isWindows ev s = Ok s' ->
  invariant s'.
Proof.
  intros Hinv Hacc. destruct ev; cbn.
  - intros [= <-]. by apply connection_invariant.
  - by apply terminal_input_invariant.
  - intros [= <-]. by apply disconnect_invariant.
  - intros [= <-]. by apply process_data_invariant.
  - intros [= <-]. by apply process_exit_invariant.
Qed.

Lemma reachable_invariant isWindows s : reachable isWindows s -> invariant s.
Proof.
  induction 1; eauto using boot_invariant, step_invariant.
Qed.

End ServerFacts.

(** ** The runtime model and the scenarios of the specification, run *)

Example toString_ascii_text :
  toString [0x6C; 0x73; 0x0A]%N = "ls" +:+ String "010"%char EmptyString.
Proof. reflexivity. Qed.

Example toString_well_formed :
  bytes_of_string (toString [0xE2; 0x82; 0xAC; 0xF0; 0x9F; 0x98; 0x80]%N)
  = [0xE2; 0x82; 0xAC; 0xF0; 0x9F; 0x98; 0x80]%N.
Proof. reflexivity. Qed.

Example toString_ill_formed :
  bytes_of_string (toString [0x61; 0xE2; 0x82; 0x62; 0xC0; 0xED; 0xA0; 0x80]%N)
  = [0x61; 0xEF; 0xBF; 0xBD; 0x62; 0xEF; 0xBF; 0xBD; 0xEF; 0xBF; 0xBD;
     0xEF; 0xBF; 0xBD; 0xEF; 0xBF; 0xBD]%N.
Proof. reflexivity. Qed.

(** Scenario A: the probe fails at startup on Windows; the first
    connection goes through the fallback module only. *)
Example scenario_A :
  boot true false all_work = Ok windows_without_node_pty
  /\ (spawnPty (Pty:=unit) true all_work (backend windows_without_node_pty)).2
     = [WslFallback].
Proof. split; reflexivity. Qed.

(** Scenario B: node-pty fails to spawn for "c1"; "c1" runs on the
    fallback module and so does "c2". *)
Example scenario_B :
  let s1 := after true [Connection "c1" no_native] (fresh initial_backend) in
  terminalBackend (backend s1) = WslFallback
  /\ (is_pipe <$> (heap s1 !! 0)) = Some true
  /\ (spawnPty (Pty:=unit) true all_work (backend s1)).2 = [WslFallback].
Proof. repeat split; reflexivity. Qed.

(** Scenario C: every strategy fails for "c3". *)
Example scenario_C :
  let s1 := after true [Connection "c3" nothing_works] (fresh initial_backend) in
  (spawnPty (Pty:=unit) true nothing_works initial_backend).2
  = [NodePtyBackend; WslFallback; PowershellChild]
  /\ activePtys s1 !! "c3" = None
  /\ emitted_on s1 "c3" = [unable_notice].
Proof. repeat split; reflexivity. Qed.

(** Scenario D: the text ls, followed by a line feed, sent on "c4". *)
Example scenario_D :
  let ls := "ls" +:+ String "010"%char EmptyString in
  let s1 := after true [Connection "c4" no_native; TerminalInput "c4" (Text ls)]
                  (fresh initial_backend) in
  (received <$> (heap s1 !! 0)) = Some [ls].
Proof. reflexivity. Qed.

(** ** C1: the order and the bound of the spawn attempts *)

Section FallbackChain.
Context {Pty : Type} `{!NodePty Pty}.

(** C1, as the code has it. For every connection accepted by a running
    service, the strategies tried by [spawnPty] go strictly down the
    path node-pty, wsl-fallback, powershell-child (none twice, none out
    of order), and there are between one and three of them. When a
    handle is obtained it is stored in the heap and registered under
    the socket's id. When [spawnPty] throws, every strategy that was
    tried has failed, the registry is left as it was, and the socket
    receives the single "Unable to start" notice and is closed by the
    server. On a Windows host whose state is not yet powershell-child
    the failure comes only after the PowerShell spawn has failed; on
    any other host the PowerShell spawn is never tried. *)
Theorem C1_fallback_chain isWindows (s : Server Pty) id o :
  reachable isWindows s ->
  let '(r, _, tried) := spawnPty isWindows o (backend s) in
  let s' := connection isWindows id o s in
  demoting tried /\ 1 <= length tried <= 3 /\
  match r with
  | Ok h =>
      activePtys s' !! id = Some (length (heap s)) /\
      heap s' !! length (heap s) = Some (handle_onData id h)
  | Throw e =>
      Forall (fun t => works o t = false) tried /\
      activePtys s' = activePtys s /\
      sockets s' !! id = Some {| emitted := [unable_notice];
                                 disconnected := true;
                                 ptyProcess := None |} /\
      if isWindows then
        terminalBackend (backend s) <> PowershellChild ->
        last tried = Some PowershellChild
      else PowershellChild ∉ tried
  end.
Proof.
  intros Hreach.
  destruct (reachable_invariant _ _ Hreach) as [Hb _ _ _].
  pose proof (spawnPty_demoting isWindows o _ Hb) as [Hd Hlen].
  pose proof (spawnPty_throw isWindows o (backend s)) as Hfail.
  pose proof (spawnPty_throw_windows o (backend s)) as Hwin.
  pose proof (spawnPty_throw_elsewhere o (backend s)) as Helse.
  unfold connection.
  destruct (spawnPty isWindows o (backend s)) as [[r b'] tried] eqn:E.
  cbn in Hd, Hlen, Hfail. split; [done|]. split; [done|].
  destruct r as [h|e]; cbn.
  - split; [apply lookup_insert_eq | by apply list_lookup_middle].
  - split; [by eapply Hfail|]. split; [done|].
    split; [apply lookup_insert_eq|].
    destruct isWindows; rewrite E in *; cbn in *; eauto.
Qed.

End FallbackChain.

(** C1, counterexample. On a Linux host, after node-pty fails to spawn,
    the fallback module is tried and, when it fails too, its error is
    rethrown: the caller sees the failure after two strategies, and
    PowerShell is never tried although it would have worked. *)
Lemma C1_counterexample :
  spawnPty (Pty:=unit) false only_powershell initial_backend
  = (Throw (SpawnFailed WslFallback),
     {| pty := FallbackModule; fallbackPty := true;
        terminalBackend := WslFallback |},
     [NodePtyBackend; WslFallback])
  /\ works only_powershell PowershellChild = true.
Proof. split; reflexivity. Qed.

(** C1 at work: every strategy fails for "c3" on a Windows host that
    started on wsl-fallback. *)
Lemma C1_fallback_chain_witness :
  reachable true windows_without_node_pty
  /\ let '(r, _, tried) :=
       spawnPty true nothing_works (backend windows_without_node_pty) in
     let s' := connection true "c3" nothing_works windows_without_node_pty in
     demoting tried /\ 1 <= length tried <= 3 /\
     match r with
     | Ok h =>
         activePtys s' !! "c3" = Some (length (heap windows_without_node_pty)) /\
         heap s' !! length (heap windows_without_node_pty)
         = Some (handle_onData "c3" h)
     | Throw e =>
         Forall (fun t => works nothing_works t = false) tried /\
         activePtys s' = activePtys windows_without_node_pty /\
         sockets s' !! "c3" = Some {| emitted := [unable_notice];
                                      disconnected := true;
                                      ptyProcess := None |} /\
         (terminalBackend (backend windows_without_node_pty) <> PowershellChild ->
          last tried = Some PowershellChild)
     end.
Proof.
  assert (H : reachable true windows_without_node_pty).
  { by apply (reach_boot true false all_work). }
  split; [exact H|].
  exact (C1_fallback_chain true windows_without_node_pty "c3" nothing_works H).
Defined.

(** ** C2: the startup probe *)

(** C2, as the code has it. When node-pty loads, the service starts on
    node-pty. When it does not, a Windows host loads the fallback module
    and starts on wsl-fallback (provided that module loads); on every
    other platform the import error is rethrown and the service does not
    start. *)
Theorem C2_startup_probe isWindows nodePtyImports o :
  startup isWindows nodePtyImports o =
    if nodePtyImports then Ok initial_backend
    else if isWindows && fallbackImports o then
      Ok {| pty := FallbackModule; fallbackPty := true;
            terminalBackend := WslFallback |}
    else Throw (ImportFailed (if isWindows then FallbackModule
                              else NodePtyModule)).
Proof. by destruct isWindows, nodePtyImports, o as [? [] ? ?]. Qed.

(** C2, counterexample. On Linux a failed import of node-pty is not
    absorbed: the top-level [catch] rethrows it. *)
Lemma C2_counterexample :
  startup false false all_work = Throw (ImportFailed NodePtyModule)
  /\ boot (Pty:=unit) false false all_work = Throw (ImportFailed NodePtyModule).
Proof. split; reflexivity. Qed.

(** ** C3: demotion never goes back *)

Section Demotion.
Context {Pty : Type} `{!NodePty Pty}.

Lemma step_backend isWindows ev (s s' : Server Pty) :
  step isWindows ev s = Ok s' ->
  backend s' = backend s
  \/ exists o, backend s' = (spawnPty (Pty:=Pty) isWindows o (backend s)).1.2.
Proof.
  destruct ev as [id o|id data|id|ref from chunk|ref]; cbn.
  - intros [= <-]. right. exists o. unfold connection.
    by destruct (spawnPty isWindows o (backend s)) as [[[h|e] b'] tried].
  - unfold terminal_input.
    destruct (_ ≫= _); [|by left; congruence].
    destruct (truthy _); [|by left; congruence].
    destruct (heap s !! _); [|by left; congruence].
    destruct (handle_write _ _) as [h' [e|]]; [done|].
    intros [= <-]. by left.
  - intros [= <-]. left. unfold disconnect.
    destruct (_ ≫= _); [|done]. by destruct (activePtys s !! _).
  - intros [= <-]. left. unfold process_data.
    destruct (heap s !! _); [|done]. by destruct (handle_data _ _ _).
  - intros [= <-]. left. unfold process_exit.
    destruct (heap s !! _); [|done]. destruct (has_exited _); [done|].
    by destruct (handle_exit _).
Qed.

Lemma run_backend isWindows evs (s s' : Server Pty) :
  consistent (backend s) -> run isWindows evs s = Ok s' ->
  consistent (backend s')
  /\ rank (terminalBackend (backend s)) <= rank (terminalBackend (backend s'))
  /\ (pty (backend s) = FallbackModule -> pty (backend s') = FallbackModule).
Proof.
  revert s. induction evs as [|ev evs IH]; intros s Hc; cbn.
  - intros [= <-]. auto.
  - destruct (step isWindows ev s) as [s1|e] eqn:E; [|done]. intros Hrun.
    assert (consistent (backend s1)
            /\ rank (terminalBackend (backend s))
               <= rank (terminalBackend (backend s1))
            /\ (pty (backend s) = FallbackModule ->
                pty (backend s1) = FallbackModule)) as (Hc1 & Hr1 & Hp1).
    { destruct (step_backend _ _ _ _ E) as [->|[o ->]]; [auto|].
      split; [by apply spawnPty_consistent|].
      split; [by apply spawnPty_rank|apply spawnPty_pty_stable]. }
    destruct (IH s1 Hc1 Hrun) as (Hc' & Hr' & Hp').
    split; [done|]. split; [lia|auto].
Qed.

(** C3, as the code has it. Along every run of a service,
    [terminalBackend] only moves down the path: once it has left
    node-pty it never is node-pty again. A connection made afterwards
    starts on wsl-fallback whenever that is the state, and it does not
    try node-pty at all once [pty] holds the fallback module, which is
    the case whenever the state is wsl-fallback. *)
Theorem C3_monotonic_demotion isWindows evs (s s' : Server Pty) o :
  reachable isWindows s -> run isWindows evs s = Ok s' ->
  let tried := (spawnPty (Pty:=Pty) isWindows o (backend s')).2 in
  rank (terminalBackend (backend s)) <= rank (terminalBackend (backend s'))
  /\ (terminalBackend (backend s) <> NodePtyBackend ->
      terminalBackend (backend s') <> NodePtyBackend)
  /\ (terminalBackend (backend s') = WslFallback ->
      exists rest, tried = WslFallback :: rest)
  /\ (pty (backend s) = FallbackModule -> NodePtyBackend ∉ tried)
  /\ (terminalBackend (backend s) = WslFallback ->
      pty (backend s) = FallbackModule).
Proof.
  intros Hreach Hrun tried.
  destruct (reachable_invariant _ _ Hreach) as [Hc _ _ _].
  destruct (run_backend _ _ _ _ Hc Hrun) as (Hc' & Hrank & Hpty).
  destruct (spawnPty_first (Pty:=Pty) isWindows o (backend s')) as [rest Hfirst].
  destruct (spawnPty_demoting (Pty:=Pty) isWindows o _ Hc') as [Hd _].
  fold tried in Hfirst, Hd.
  split; [done|]. split; [|split; [|split]].
  - intros Hne Heq. rewrite Heq in Hrank. cbn in Hrank.
    destruct (terminalBackend (backend s)); cbn in Hrank; [done|lia..].
  - intros Hwsl. exists rest. by rewrite Hfirst, (on_wsl _ Hc' Hwsl).
  - intros Hp. rewrite Hfirst, (Hpty Hp) in *. cbn in Hd.
    apply StronglySorted_inv in Hd as [_ Hall].
    rewrite Forall_forall in Hall.
    intros [Heq|Hin]%elem_of_cons; [done|].
    apply Hall in Hin. cbn in Hin. lia.
  - apply Hc.
Qed.

End Demotion.

(** C3, counterexample. On Windows, once a connection has fallen through
    to PowerShell the state is powershell-child, yet the next connection
    starts with the fallback module's spawn: it runs on the strategy
    above the current one. *)
Lemma C3_counterexample :
  let s1 := after true [Connection "c1" only_powershell]
                  (fresh initial_backend) in
  terminalBackend (backend s1) = PowershellChild
  /\ (spawnPty (Pty:=unit) true all_work (backend s1)).2 = [WslFallback]
  /\ rank WslFallback < rank (terminalBackend (backend s1)).
Proof. vm_compute. repeat split; constructor. Qed.

(** C3 at work: two connections on a Windows host that started on
    wsl-fallback. *)
Lemma C3_monotonic_demotion_witness :
  reachable true windows_without_node_pty
  /\ run true [Connection "c1" only_powershell; Connection "c2" all_work]
         windows_without_node_pty
     = Ok (after true [Connection "c1" only_powershell; Connection "c2" all_work]
                 windows_without_node_pty)
  /\ rank WslFallback <= rank PowershellChild.
Proof.
  assert (H : reachable true windows_without_node_pty).
  { by apply (reach_boot true false all_work). }
  assert (Hrun : run true [Connection "c1" only_powershell; Connection "c2" all_work]
                     windows_without_node_pty
                 = Ok (after true [Connection "c1" only_powershell;
                                   Connection "c2" all_work]
                             windows_without_node_pty)).
  { reflexivity. }
  split; [exact H|]. split; [exact Hrun|].
  exact (proj1 (C3_monotonic_demotion true _ _ _ all_work H Hrun)).
Defined.

(** ** C4: the exit notice *)

Section ExitNotice.
Context {Pty : Type} `{!NodePty Pty}.

Lemma pipe_exit_calls (h : Handle Pty) id :
  is_pipe h = true -> subscriber h = Some id ->
  (handle_exit h).2 = [(id, exit_notice_of h)]
  /\ has_exited (handle_exit h).1 = true.
Proof.
  destruct h as [n|p|p]; [done|..]; cbn.
  - unfold PtyWslFallback.on_exit. by intros _ ->.
  - unfold PowerShellFallback.on_exit. by intros _ ->.
Qed.

(** C4, as the code has it. When the process behind a registered
    pipe-based handle (wsl-fallback or PowerShell) exits, its notice is
    emitted once on the session's socket and on no other socket; a
    repeated exit event changes nothing. The registry is not touched:
    the session stays in [activePtys] until the socket disconnects. *)
Theorem C4_exit_notice isWindows (s : Server Pty) id ref h :
  reachable isWindows s ->
  activePtys s !! id = Some ref ->
  heap s !! ref = Some h ->
  is_pipe h = true ->
  has_exited h = false ->
  let s' := process_exit ref s in
  emitted_on s' id = emitted_on s id ++ [exit_notice_of h]
  /\ (forall id', id' <> id -> sockets s' !! id' = sockets s !! id')
  /\ activePtys s' = activePtys s
  /\ process_exit ref s' = s'.
Proof.
  intros Hreach Ha Hh Hp Hne.
  destruct (reachable_invariant _ _ Hreach) as [_ Hr Hbd _].
  pose proof (Hr _ _ Ha) as Hbound.
  destruct (Hbd _ _ Hbound) as (h0 & Hh0 & Hok).
  assert (h0 = h) as -> by congruence.
  destruct (pipe_exit_calls h id Hp (Hok Hp)) as [Hcalls Hex].
  unfold process_exit. rewrite Hh, Hne.
  destruct (handle_exit h) as [h' cs]. cbn in Hcalls, Hex. subst cs. cbn.
  unfold bound in Hbound.
  destruct (sockets s !! id) as [k|] eqn:Hk; [|done].
  split; [|split; [|split]].
  - unfold emitted_on, socket_emit; cbn.
    by rewrite lookup_alter_eq, Hk.
  - intros id' Hid. unfold socket_emit. by rewrite lookup_alter_ne.
  - done.
  - rewrite list_lookup_insert_eq by (by eapply lookup_lt_Some).
    by rewrite Hex.
Qed.

End ExitNotice.

(** C4, counterexample. After the process of session "c5" has exited and
    the notice has been emitted, "c5" is still registered. *)
Lemma C4_counterexample :
  let s := after true [Connection "c5" all_work; ProcessExit 0]
                 windows_without_node_pty in
  emitted_on s "c5" = [PtyWslFallback.exit_notice]
  /\ activePtys s !! "c5" = Some 0.
Proof. split; reflexivity. Qed.

(** C4 at work: the process of "c5" exits. *)
Lemma C4_exit_notice_witness :
  let s := after true [Connection "c5" all_work] windows_without_node_pty in
  let h := Wsl (PtyWslFallback.onData "c5"
                  (PtyWslFallback.spawn true "powershell.exe" [])) in
  reachable true s
  /\ activePtys s !! "c5" = Some 0
  /\ heap s !! 0 = Some h
  /\ emitted_on (process_exit 0 s) "c5" = [PtyWslFallback.exit_notice].
Proof.
  intros s h.
  assert (H : reachable true s).
  { apply (reach_step true (Connection "c5" all_work) windows_without_node_pty).
    - by apply (reach_boot true false all_work).
    - reflexivity.
    - reflexivity. }
  split; [exact H|]. split; [reflexivity|]. split; [reflexivity|].
  exact (proj1 (C4_exit_notice true s "c5" 0 h H eq_refl eq_refl eq_refl eq_refl)).
Defined.

(** ** C5: teardown *)

Section Teardown.
Context {Pty : Type} `{!NodePty Pty}.

Lemma disconnect_twice (s : Server Pty) id :
  disconnect id (disconnect id s) = disconnect id s.
Proof.
  unfold disconnect at 2 3.
  destruct (sockets s !! id ≫= ptyProcess) as [r0|] eqn:Hs.
  - destruct (activePtys s !! id) as [ref|] eqn:Ha.
    + unfold disconnect; cbn. by rewrite Hs, lookup_delete_eq.
    + unfold disconnect. by rewrite Hs, Ha.
  - unfold disconnect. by rewrite Hs.
Qed.

(** C5. The ['disconnect'] listener is the teardown. It never fails
    (an exception of [kill] is caught), running it twice is the same as
    running it once, and it does nothing for an id that has no session.
    When a session exists, its entry is removed from [activePtys] and
    [kill] is called on its handle, and on no other: node-pty's own
    [kill] for a native handle, [PtyProcess.kill] for a fallback handle,
    the PowerShell handle's [kill] for a PowerShell handle (which
    signals the process of a pipe-based handle if it is still
    running). *)
Theorem C5_teardown_idempotent isWindows (s : Server Pty) id :
  reachable isWindows s ->
  step isWindows (Disconnect id) s = Ok (disconnect id s)
  /\ disconnect id (disconnect id s) = disconnect id s
  /\ activePtys (disconnect id s) !! id = None
  /\ match activePtys s !! id with
     | Some ref =>
         activePtys (disconnect id s) = delete id (activePtys s)
         /\ exists h h',
              heap s !! ref = Some h
              /\ heap (disconnect id s) !! ref = Some h'
              /\ h' = (handle_kill h).1
              /\ (is_pipe h = true -> has_exited h = false ->
                  signalled h' = true)
              /\ (forall n, h = Native n -> h' = Native (np_kill n).1)
              /\ (forall p, h = Wsl p -> h' = Wsl (PtyWslFallback.kill p))
              /\ (forall p, h = PowerShell p ->
                    h' = PowerShell (PowerShellFallback.kill p))
              /\ heap (disconnect id s) = <[ref := h']> (heap s)
     | None => disconnect id s = s
     end.
Proof.
  intros Hreach.
  destruct (reachable_invariant _ _ Hreach) as [_ Hr Hbd _].
  split; [done|]. split; [apply disconnect_twice|].
  destruct (activePtys s !! id) as [ref|] eqn:Ha.
  - pose proof (Hr _ _ Ha) as Hbound.
    destruct (Hbd _ _ Hbound) as (h & Hh & _).
    unfold disconnect. unfold bound in Hbound. rewrite Hbound, Ha, Hh; cbn.
    split; [apply lookup_delete_eq|]. split; [done|].
    exists h, (handle_kill h).1. split; [done|]. split; [|split; [done|]].
    + apply list_lookup_insert_eq. by eapply lookup_lt_Some.
    + split; [apply kill_signals|].
      split; [intros n ->; cbn; by destruct (np_kill n)|].
      split; [by intros p ->|]. split; [by intros p ->|done].
  - unfold disconnect. rewrite Ha.
    by destruct (sockets s !! id ≫= ptyProcess).
Qed.

End Teardown.

(** C5 at work on a native session whose terminal has exited: "c1"
    disconnects, twice. node-pty's [kill] is called once on the handle
    and raises; the listener catches the exception and removes the
    entry all the same. *)
Lemma C5_teardown_idempotent_witness :
  let s := strict_after false [Connection "c1" all_work; ProcessExit 0]
             strict_host in
  let n := {| sp_exited := true; sp_written := []; sp_kills := 0;
              sp_subscribers := ["c1"] |} in
  let n' := {| sp_exited := true; sp_written := []; sp_kills := 1;
               sp_subscribers := ["c1"] |} in
  @reachable StrictPty strict_node_pty false s
  /\ activePtys s !! "c1" = Some 0
  /\ heap s !! 0 = Some (Native n)
  /\ @np_kill StrictPty strict_node_pty n = (n', Some NodePtyFailure)
  /\ @step StrictPty strict_node_pty false (Disconnect "c1") s
     = Ok (@disconnect StrictPty strict_node_pty "c1" s)
  /\ activePtys (@disconnect StrictPty strict_node_pty "c1" s) !! "c1" = None
  /\ heap (@disconnect StrictPty strict_node_pty "c1" s) !! 0 = Some (Native n')
  /\ @disconnect StrictPty strict_node_pty "c1"
       (@disconnect StrictPty strict_node_pty "c1" s)
     = @disconnect StrictPty strict_node_pty "c1" s.
Proof.
  intros s n n'.
  assert (H : @reachable StrictPty strict_node_pty false s).
  { apply (@reach_step StrictPty strict_node_pty false (ProcessExit 0)
             (strict_after false [Connection "c1" all_work] strict_host));
      [|exact I|reflexivity].
    apply (@reach_step StrictPty strict_node_pty false
             (Connection "c1" all_work) strict_host);
      [|reflexivity|reflexivity].
    by apply (@reach_boot StrictPty strict_node_pty false true all_work). }
  assert (Ha : activePtys s !! "c1" = Some 0) by reflexivity.
  pose proof (@C5_teardown_idempotent StrictPty strict_node_pty false s "c1" H)
    as (Hstep & Hidem & Hgone & Hsession).
  rewrite Ha in Hsession.
  destruct Hsession as (_ & h & h' & Hh & Hh' & _ & _ & Hnative & _).
  assert (Hn : h = Native n) by (injection Hh as <-; reflexivity).
  split; [exact H|]. split; [exact Ha|]. split; [reflexivity|].
  split; [reflexivity|]. split; [exact Hstep|]. split; [exact Hgone|].
  split; [|exact Hidem].
  rewrite Hh'. f_equal. exact (Hnative n Hn).
Defined.

(** ** C6: the input relay *)

Section InputRelay.
Context {Pty : Type} `{!NodePty Pty}.
Implicit Types (s : Server Pty) (h : Handle Pty).

Lemma write_received data h :
  is_pipe h = true -> writable h = true ->
  received (handle_write data h).1 = received h ++ [data]
  /\ writable (handle_write data h).1 = true.
Proof.
  destruct h as [n|p|p]; [done|..]; cbn; intros _.
  - unfold writable, received, PtyWslFallback.write; cbn.
    intros Hw. rewrite Hw. by cbn.
  - unfold writable, received, PowerShellFallback.write; cbn.
    intros Hw. rewrite Hw. by cbn.
Qed.

Lemma kill_received h :
  is_pipe h = true ->
  received (handle_kill h).1 = received h
  /\ writable (handle_kill h).1 = writable h.
Proof.
  destruct h as [n|p|p]; [done|..]; cbn; intros _.
  - unfold writable, received, PtyWslFallback.kill; cbn.
    destruct (negb _); [|done]; cbn.
    by destruct (child_kill_flags (PtyWslFallback.process p)) as (_ & -> & ->).
  - unfold writable, received, PowerShellFallback.kill; cbn.
    destruct (negb _); [|done]; cbn.
    by destruct (child_kill_flags (PowerShellFallback.child p)) as (_ & -> & ->).
Qed.

Lemma step_relay isWindows ev s s1 id ref log :
  invariant s -> carries s id ref log ->
  accepted ev s -> step isWindows ev s = Ok s1 ->
  ev <> ProcessExit ref ->
  carries s1 id ref (log ++ inputs_of id [ev]).
Proof.
  intros [Hb Hr Hbd Hex] (Hbound & h & Hh & Hp & Hw & Hlog) Hacc Hstep Hev.
  pose proof Hbound as Hsock. unfold bound in Hsock.
  destruct ev as [id' o|id' data|id'|r from chunk|r]; cbn in Hstep, Hacc |- *.
  - (* connection *)
    rewrite app_nil_r. injection Hstep as <-.
    assert (id' <> id) as Hid by (intros ->; by rewrite Hacc in Hsock).
    unfold connection.
    destruct (spawnPty isWindows o (backend s)) as [[[h0|e] b'] tried];
      (split; [unfold bound; cbn; by rewrite lookup_insert_ne|]);
      exists h; cbn; split_and!; try done.
    by apply lookup_app_l_Some.
  - (* input *)
    unfold terminal_input in Hstep.
    destruct (sockets s !! id' ≫= ptyProcess) as [ref'|] eqn:Hb'.
    2:{ injection Hstep as <-.
        rewrite bool_decide_eq_false_2 by (intros ->; congruence).
        cbn. rewrite app_nil_r. split; [done|]. by exists h. }
    destruct (truthy data) eqn:Ht.
    2:{ injection Hstep as <-. rewrite andb_false_r, app_nil_r.
        split; [done|]. by exists h. }
    destruct (Hbd _ _ Hb') as (h0 & Hh0 & Hok0). rewrite Hh0 in Hstep.
    destruct (handle_write (input_string data) h0) as [h0' e] eqn:Hwr.
    destruct e as [err|]; [done|]. injection Hstep as <-.
    split; [done|]. cbn.
    destruct (decide (id' = id)) as [->|Hid].
    + assert (ref' = ref) as -> by congruence.
      assert (h0 = h) as -> by congruence.
      rewrite bool_decide_eq_true_2 by done. cbn.
      destruct (write_received (input_string data) h Hp Hw) as [Hrec Hw'].
      pose proof (write_is_pipe (input_string data) h) as Hp'.
      rewrite Hwr in *. cbn in *.
      exists h0'. split_and!; try congruence.
      apply list_lookup_insert_eq. by eapply lookup_lt_Some.
    + rewrite bool_decide_eq_false_2 by done. cbn. rewrite app_nil_r.
      assert (ref' <> ref) as Hne.
      { intros ->. assert (h0 = h) as -> by congruence.
        destruct (Hbd _ _ Hbound) as (h1 & Hh1 & Hok1).
        assert (h1 = h) as -> by congruence.
        specialize (Hok0 Hp). specialize (Hok1 Hp). congruence. }
      exists h. by rewrite list_lookup_insert_ne.
  - (* disconnect *)
    rewrite app_nil_r. injection Hstep as <-. unfold disconnect.
    destruct (sockets s !! id' ≫= ptyProcess) as [r0|]; [|split; [done|by exists h]].
    destruct (activePtys s !! id') as [ref'|]; [|split; [done|by exists h]].
    split; [done|]. cbn.
    destruct (heap s !! ref') as [h0|] eqn:Hh0; [|by exists h].
    destruct (decide (ref' = ref)) as [->|Hne].
    + assert (h0 = h) as -> by congruence.
      destruct (kill_received h Hp) as [Hrec Hw'].
      exists (handle_kill h).1. split_and!; try congruence.
      * apply list_lookup_insert_eq. by eapply lookup_lt_Some.
      * by rewrite kill_is_pipe.
    + exists h. by rewrite list_lookup_insert_ne.
  - (* output *)
    rewrite app_nil_r. injection Hstep as <-. unfold process_data.
    destruct (heap s !! r) as [h0|] eqn:Hh0; [|split; [done|by exists h]].
    pose proof (data_pipe from chunk h0) as Hsame.
    destruct (handle_data from chunk h0) as [h0' cs]. cbn in Hsame.
    split; [unfold bound; cbn; by rewrite run_calls_ptyProcess|]. cbn.
    destruct (decide (r = ref)) as [->|Hne].
    + assert (h0 = h) as -> by congruence. rewrite (Hsame Hp).
      exists h. split_and!; try done.
      apply list_lookup_insert_eq. by eapply lookup_lt_Some.
    + exists h. by rewrite list_lookup_insert_ne.
  - (* exit of another process *)
    rewrite app_nil_r. injection Hstep as <-. unfold process_exit.
    assert (r <> ref) as Hne by congruence.
    destruct (heap s !! r) as [h0|] eqn:Hh0; [|split; [done|by exists h]].
    destruct (has_exited h0); [split; [done|by exists h]|].
    destruct (handle_exit h0) as [h0' cs].
    split; [unfold bound; cbn; by rewrite run_calls_ptyProcess|]. cbn.
    exists h. by rewrite list_lookup_insert_ne.
Qed.



End InputRelay.

Section InputRelayResult.
Context {Pty : Type} `{!NodePty Pty}.
Implicit Types (s : Server Pty) (h : Handle Pty).

Lemma input_accepted isWindows s id ref log data :
  carries s id ref log ->
  exists s1, step isWindows (TerminalInput id data) s = Ok s1.
Proof.
  intros (Hbound & h & Hh & Hp & _). cbn. unfold terminal_input.
  unfold bound in Hbound. rewrite Hbound.
  destruct (truthy data); [|by eexists]. rewrite Hh.
  pose proof (write_pipe_no_error (input_string data) h Hp) as He.
  destruct (handle_write _ h) as [h' e]. cbn in He. subst e. by eexists.
Qed.




End InputRelayResult.



(** ** C7: input after exit and after teardown *)

Section LateInput.
Context {Pty : Type} `{!NodePty Pty}.
Implicit Types (s : Server Pty) (h : Handle Pty).


(* On a string or a Buffer, and while the process reads its input, the
   listener on a pipe does what [handle_write] does. *)
Lemma input_listener_agrees data h c :
  child_of h = Some c -> truthy data = true ->
  child_of (handle_write (input_string data) h).1
  = Some (input_listener true (Chunk data) c).1
  /\ (input_listener true (Chunk data) c).2 = None.
Proof.
  unfold input_listener, pipe_write. cbn. intros Hc ->.
  destruct h as [n|p|p]; [done|..]; injection Hc as <-; cbn.
  - unfold PtyWslFallback.write. by destruct (stdin_writable _).
  - unfold PowerShellFallback.write. by destruct (stdin_writable _).
Qed.

(* On a string or a Buffer, and while the process reads its input,
   [terminal_input_any] is [terminal_input]. *)
Lemma terminal_input_any_chunk id data s :
  terminal_input_any true id (Chunk data) s
  = match terminal_input id data s with
    | Ok s' => Returned s'
    | Throw e => UncaughtNative e
    end.
Proof.
  unfold terminal_input_any, terminal_input. cbn.
  destruct (sockets s !! id ≫= ptyProcess) as [ref|]; [|done].
  destruct (truthy data); [|done].
  destruct (heap s !! ref) as [[n|[c cb]|[c cb]]|]; [..|done]; cbn.
  - by destruct (np_write (input_string data) n) as [n' [e|]].
  - unfold pipe_write, PtyWslFallback.write. cbn.
    by destruct (stdin_writable c).
  - unfold pipe_write, PowerShellFallback.write. cbn.
    by destruct (stdin_writable c).
Qed.

(* While the input stream is writable the write is attempted, and it
   can raise. *)
Lemma open_pipe_raises reading c :
  stdin_writable c = true ->
  input_listener reading (NotAChunk true) c = (c, Some InvalidChunk)
  /\ input_listener false (Chunk (Text "x")) c = (c, Some BrokenPipe).
Proof. unfold input_listener, pipe_write. cbn. by intros ->. Qed.

Lemma open_stream_raises reading id ref h c s :
  bound s id ref -> heap s !! ref = Some h -> child_of h = Some c ->
  stdin_writable c = true ->
  terminal_input_any reading id (NotAChunk true) s = Uncaught InvalidChunk
  /\ terminal_input_any false id (Chunk (Text "x")) s = Uncaught BrokenPipe.
Proof.
  unfold bound, terminal_input_any. intros -> -> Hc Hw. cbn.
  destruct h as [n|[c0 cb]|[c0 cb]]; [done|..]; injection Hc as ->;
    unfold write_any, pipe_write; cbn; by rewrite Hw.
Qed.


(* On a native handle the listener hands the string to node-pty's
   [write], and what that raises escapes the listener. *)
Lemma native_input_unguarded id data s ref n e :
  bound s id ref -> heap s !! ref = Some (Native n) -> truthy data = true ->
  (np_write (input_string data) n).2 = Some e ->
  terminal_input id data s = Throw e.
Proof.
  unfold bound, terminal_input. intros -> -> -> He. cbn.
  destruct (np_write (input_string data) n) as [n' e']. cbn in He. by subst e'.
Qed.

(* The teardown signals the process and leaves the guard of [write] as
   it was: the input stream closes when the process exits. *)
Lemma kill_keeps_guard h : writable (handle_kill h).1 = writable h.
Proof.
  destruct h as [n|[[f a k e w i] cb]|[[f a k e w i] cb]]; cbn.
  - by destruct (np_kill n).
  - by destruct k, e.
  - by destruct k, e.
Qed.


End LateInput.



(** ** C8: [kill] *)

Section Kill.
Context {Pty : Type} `{!NodePty Pty}.


End Kill.



(** ** C9: the health probe *)

Section Health.
Context {Pty : Type} `{!NodePty Pty}.

(** C9, as the code has it. The health body has the three fields
    status, service and timestamp, with status "ok"; it is the same in
    every state of the service, so it carries no information about the
    backend. *)
Theorem C9_health_body now (s s' : Server Pty) :
  health now s = health now s'
  /\ (health now s).*1 = ["status"; "service"; "timestamp"]
  /\ ("status", "ok") ∈ health now s
  /\ ("timestamp", now) ∈ health now s.
Proof.
  split; [done|]. split; [done|]. split; [by left|].
  right. right. by left.
Qed.

End Health.

(** C9, counterexample. On node-pty as on powershell-child the body is
    the same, and no field holds the name of the active backend. *)
Lemma C9_counterexample :
  let now := "2024-01-01T00:00:00.000Z" in
  let s := fresh initial_backend in
  let s' := after true [Connection "c1" only_powershell] s in
  terminalBackend (backend s) <> terminalBackend (backend s')
  /\ health now s = health now s'
  /\ Forall (fun kv => kv.2 <> backend_name (terminalBackend (backend s))
                       /\ kv.2 <> backend_name (terminalBackend (backend s')))
            (health now s).
Proof.
  cbv zeta. split; [by vm_compute|]. split; [done|].
  repeat constructor; by vm_compute.
Qed.

(** ** C10: output without a subscriber *)

Section SubscriberSlot.
Context {Pty : Type} `{!NodePty Pty}.
Implicit Types (h : Handle Pty).

Lemma pipe_data from chunk h :
  is_pipe h = true ->
  handle_data from chunk h = (h, slot_of (subscriber h) (toString chunk)).
Proof. destruct h as [n|p|p]; [done|..]; intros _; by destruct from. Qed.

Lemma pipe_exit h :
  is_pipe h = true ->
  (handle_exit h).2 = slot_of (subscriber h) (exit_notice_of h)
  /\ is_pipe (handle_exit h).1 = true
  /\ subscriber (handle_exit h).1 = subscriber h
  /\ exit_notice_of (handle_exit h).1 = exit_notice_of h.
Proof. by destruct h as [n|p|p]. Qed.



End SubscriberSlot.


(** * Further properties of the relay *)

(** ** What [spawnPty] returns *)

Section SpawnOutcome.
Context {Pty : Type} `{!NodePty Pty}.

Ltac enumerate isWindows o b :=
  destruct isWindows, o as [[] [] [] []], b as [[] [] []].

Lemma spawned_pristine isWindows o b h :
  (spawnPty (Pty:=Pty) isWindows o b).1.1 = Ok h -> pristine h.
Proof.
  enumerate isWindows o b; intros He; vm_compute in He;
    try discriminate He; injection He as <-;
    (split; [reflexivity|]); intros c Hc; vm_compute in Hc;
    try discriminate Hc; injection Hc as <-; done.
Qed.

(** X1. When [spawnPty] returns a handle, the handle comes from the
    strategy tried last, that strategy worked, every strategy tried
    before it had failed, and a pipe-based handle is returned as spawned:
    no subscriber, process running, input stream open and empty. *)
Theorem spawnPty_returns_first_working isWindows o b h :
  (spawnPty (Pty:=Pty) isWindows o b).1.1 = Ok h ->
  let tried := (spawnPty (Pty:=Pty) isWindows o b).2 in
  tried = removelast tried ++ [kind_of h]
  /\ works o (kind_of h) = true
  /\ Forall (fun t => works o t = false) (removelast tried)
  /\ pristine h.
Proof.
  intros He tried. split_and!; [..|by eapply spawned_pristine];
    subst tried; revert He;
    enumerate isWindows o b; intros He; vm_compute in He;
    try discriminate He; injection He as <-;
    first [reflexivity | vm_compute; repeat constructor].
Qed.

(** X2. No demotion without a failure: when the spawn of the module
    held in [pty] works, it is the only attempt, the handle is that
    module's, and the backend state is left exactly as it was. *)
Theorem spawnPty_first_attempt_works isWindows o b :
  works o (strategy_of (pty b)) = true ->
  exists h,
    spawnPty (Pty:=Pty) isWindows o b = (Ok h, b, [strategy_of (pty b)])
    /\ kind_of h = strategy_of (pty b).
Proof.
  enumerate isWindows o b; intros Hw; try discriminate Hw;
    eexists; split; reflexivity.
Qed.

(** X3. PowerShell is the backstop on Windows: as long as the state is
    not yet powershell-child, a connection gets a handle whenever the
    PowerShell spawn works, whatever else fails. *)
Theorem spawnPty_powershell_backstop o b :
  consistent b ->
  terminalBackend b <> PowershellChild ->
  powershellSpawns o = true ->
  exists h, (spawnPty (Pty:=Pty) true o b).1.1 = Ok h.
Proof.
  intros Hc Hb Hp. destruct o as [[] [] [] []], b as [[] [] []];
    try discriminate Hp; try (by destruct Hb);
    try (destruct Hc as [H1 H2 H3]; cbn in H1, H2, H3;
         first [ by specialize (H1 eq_refl) | by specialize (H2 eq_refl)
               | by specialize (H3 eq_refl) ]);
    eexists; reflexivity.
Qed.

(** X4. Once the state is powershell-child there is no fallback left:
    on every host a connection makes exactly one attempt, through the
    module held in [pty], and fails when that attempt fails, even if the
    PowerShell spawn would work. The state stays powershell-child. *)
Theorem spawnPty_after_powershell isWindows o b :
  terminalBackend b = PowershellChild ->
  (spawnPty (Pty:=Pty) isWindows o b).2 = [strategy_of (pty b)]
  /\ (spawnPty (Pty:=Pty) isWindows o b).1.2 = b
  /\ (works o (strategy_of (pty b)) = false ->
      (spawnPty (Pty:=Pty) isWindows o b).1.1
      = Throw (SpawnFailed (strategy_of (pty b)))).
Proof.
  enumerate isWindows o b; intros Hb; try discriminate Hb;
    repeat split; intros Hw; try discriminate Hw; reflexivity.
Qed.

End SpawnOutcome.

(** ** What the operations on a handle leave alone *)

Section HandleIdentity.
Context {Pty : Type} `{!NodePty Pty}.
Implicit Types (h : Handle Pty).

Lemma write_identity data h :
  kind_of (handle_write data h).1 = kind_of h
  /\ command_line (handle_write data h).1 = command_line h
  /\ exit_notice_of (handle_write data h).1 = exit_notice_of h
  /\ (is_pipe h = true ->
      signalled (handle_write data h).1 = signalled h
      /\ has_exited (handle_write data h).1 = has_exited h).
Proof.
  destruct h as [n|p|p]; cbn.
  - by destruct (np_write _ _).
  - unfold PtyWslFallback.write. by destruct (stdin_writable _).
  - unfold PowerShellFallback.write. by destruct (stdin_writable _).
Qed.

Lemma kill_identity h :
  kind_of (handle_kill h).1 = kind_of h
  /\ command_line (handle_kill h).1 = command_line h
  /\ exit_notice_of (handle_kill h).1 = exit_notice_of h
  /\ (is_pipe h = true ->
      has_exited (handle_kill h).1 = has_exited h
      /\ (has_exited h = false -> signalled (handle_kill h).1 = true)).
Proof.
  destruct h as [n|[[f a k e w i] cb]|[[f a k e w i] cb]]; cbn.
  - by destruct (np_kill _).
  - by destruct k, e.
  - by destruct k, e.
Qed.

Lemma data_identity from chunk h :
  kind_of (handle_data from chunk h).1 = kind_of h
  /\ subscriber (handle_data from chunk h).1 = subscriber h
  /\ (is_pipe h = true -> (handle_data from chunk h).1 = h).
Proof. destruct h as [n|p|p]; cbn; [by destruct (np_data _ _)|done..]. Qed.

Lemma exit_identity h :
  kind_of (handle_exit h).1 = kind_of h
  /\ command_line (handle_exit h).1 = command_line h
  /\ exit_notice_of (handle_exit h).1 = exit_notice_of h
  /\ (is_pipe h = true ->
      signalled (handle_exit h).1 = signalled h
      /\ has_exited (handle_exit h).1 = true).
Proof. destruct h as [n|p|p]; cbn; [by destruct (np_exit _)|done..]. Qed.

Lemma onData_identity id h :
  kind_of (handle_onData id h) = kind_of h
  /\ command_line (handle_onData id h) = command_line h
  /\ exit_notice_of (handle_onData id h) = exit_notice_of h
  /\ signalled (handle_onData id h) = signalled h
  /\ has_exited (handle_onData id h) = has_exited h.
Proof. by destruct h. Qed.

(** A step that is not a connection: what it can change. The handle
    [h0] at [r] becomes [h'] by the one operation the event applies. *)
Lemma quiet_step isWindows ev (s s1 : Server Pty) :
  (forall id o, ev <> Connection id o) ->
  step isWindows ev s = Ok s1 ->
  backend s1 = backend s
  /\ (forall id, sockets s1 !! id ≫= ptyProcess = sockets s !! id ≫= ptyProcess)
  /\ (activePtys s1 = activePtys s
      \/ exists id, ev = Disconnect id
                    /\ activePtys s1 = delete id (activePtys s))
  /\ (heap s1 = heap s
      \/ exists r h0 h',
           heap s !! r = Some h0 /\ heap s1 = <[r := h']> (heap s)
           /\ match ev with
              | TerminalInput id data =>
                  bound s id r /\ h' = (handle_write (input_string data) h0).1
              | Disconnect id =>
                  activePtys s !! id = Some r /\ h' = (handle_kill h0).1
              | ProcessData r' from chunk =>
                  r' = r /\ h' = (handle_data from chunk h0).1
              | ProcessExit r' =>
                  r' = r /\ has_exited h0 = false /\ h' = (handle_exit h0).1
              | Connection _ _ => False
              end).
Proof.
  intros Hev. destruct ev as [id o|id data|id|r from chunk|r]; cbn.
  - by destruct (Hev id o).
  - unfold terminal_input.
    destruct (sockets s !! id ≫= ptyProcess) as [ref|] eqn:Hb;
      [|intros [= <-]; auto].
    destruct (truthy data); [|intros [= <-]; auto].
    destruct (heap s !! ref) as [h|] eqn:Hh; [|intros [= <-]; auto].
    destruct (handle_write (input_string data) h) as [h' [e|]] eqn:Hw; [done|].
    intros [= <-]. cbn. split_and!; auto.
    right. exists ref, h, h'. split_and!; auto. by rewrite Hw.
  - intros [= <-]. unfold disconnect.
    destruct (sockets s !! id ≫= ptyProcess) as [r0|]; [|auto].
    destruct (activePtys s !! id) as [ref|] eqn:Ha; [|auto].
    cbn. split_and!; eauto.
    destruct (heap s !! ref) as [h|] eqn:Hh; [|auto].
    right. exists ref, h, (handle_kill h).1. auto.
  - intros [= <-]. unfold process_data.
    destruct (heap s !! r) as [h|] eqn:Hh; [|auto].
    destruct (handle_data from chunk h) as [h' cs] eqn:Hd. cbn.
    split_and!; auto using run_calls_ptyProcess.
    right. exists r, h, h'. split_and!; auto. by rewrite Hd.
  - intros [= <-]. unfold process_exit.
    destruct (heap s !! r) as [h|] eqn:Hh; [|auto].
    destruct (has_exited h) eqn:He; [auto|].
    destruct (handle_exit h) as [h' cs] eqn:Hx. cbn.
    split_and!; auto using run_calls_ptyProcess.
    right. exists r, h, h'. split_and!; auto. by rewrite Hx.
Qed.

(** A connection: the heap is left alone or extended by the new
    handle. *)
Lemma connection_cases isWindows id o (s : Server Pty) :
  let s1 := connection isWindows id o s in
  backend s1 = (spawnPty isWindows o (backend s)).1.2
  /\ ((exists e, (spawnPty isWindows o (backend s)).1.1 = Throw e
                 /\ heap s1 = heap s /\ activePtys s1 = activePtys s
                 /\ sockets s1 = <[id := {| emitted := [unable_notice];
                                            disconnected := true;
                                            ptyProcess := None |}]> (sockets s))
      \/ (exists h, (spawnPty isWindows o (backend s)).1.1 = Ok h
                    /\ heap s1 = heap s ++ [handle_onData id h]
                    /\ activePtys s1 = <[id := length (heap s)]> (activePtys s)
                    /\ sockets s1 = <[id := {| emitted := [];
                                               disconnected := false;
                                               ptyProcess := Some (length (heap s)) |}]>
                                      (sockets s))).
Proof.
  unfold connection.
  destruct (spawnPty isWindows o (backend s)) as [[[h|e] b'] tried]; cbn;
    (split; [done|]); [right|left]; eauto 10.
Qed.

End HandleIdentity.

(** ** Properties of every handle a service holds *)

Section HeapProperties.
Context {Pty : Type} `{!NodePty Pty}.
Implicit Types (s : Server Pty) (h : Handle Pty).

(* A property of handles kept by the four operations and true of every
   handle [spawnPty] returns (under [Q] on the backend state, which the
   fallback chain keeps) holds of the whole heap after any step. *)
Lemma heap_forall_step isWindows (P : Handle Pty -> Prop)
    (Q : BackendState -> Prop) ev s s1 :
  (forall d h, P h -> P (handle_write d h).1) ->
  (forall h, P h -> P (handle_kill h).1) ->
  (forall f c h, P h -> P (handle_data f c h).1) ->
  (forall h, P h -> P (handle_exit h).1) ->
  (forall o b h id, Q b -> (spawnPty isWindows o b).1.1 = Ok h ->
                    P (handle_onData id h)) ->
  (forall o b, Q b -> Q (spawnPty (Pty:=Pty) isWindows o b).1.2) ->
  Q (backend s) -> Forall P (heap s) ->
  step isWindows ev s = Ok s1 ->
  Q (backend s1) /\ Forall P (heap s1).
Proof.
  intros Hw Hk Hd Hx Hnew HQ Hq Hall Hstep.
  assert ((exists id o, ev = Connection id o)
          \/ (forall id o, ev <> Connection id o)) as [(id & o & ->)|Hno]
    by (destruct ev; [left; eauto|right; done..]).
  - injection Hstep as <-.
    destruct (connection_cases isWindows id o s)
      as (-> & [(e & _ & -> & _)|(h & Hsp & -> & _)]).
    + split; [by apply HQ|done].
    + split; [by apply HQ|]. apply Forall_app. split; [done|].
      constructor; [|constructor]. by eapply Hnew.
  - destruct (quiet_step isWindows ev s s1) as (-> & _ & _ & Hheap);
      [done|done|]. split; [done|].
    destruct Hheap as [->|(r & h0 & h' & Hh0 & -> & Hop)]; [done|].
    apply Forall_insert; [done|].
    assert (P h0) by (by eapply Forall_lookup_1 in Hall).
    destruct ev; destruct_and?; subst; auto. done.
Qed.

Lemma heap_forall_reachable isWindows (P : Handle Pty -> Prop)
    (Q : BackendState -> Prop) s :
  (forall d h, P h -> P (handle_write d h).1) ->
  (forall h, P h -> P (handle_kill h).1) ->
  (forall f c h, P h -> P (handle_data f c h).1) ->
  (forall h, P h -> P (handle_exit h).1) ->
  (forall o b h id, Q b -> (spawnPty isWindows o b).1.1 = Ok h ->
                    P (handle_onData id h)) ->
  (forall o b, Q b -> Q (spawnPty (Pty:=Pty) isWindows o b).1.2) ->
  (forall i o b, startup isWindows i o = Ok b -> Q b) ->
  reachable isWindows s ->
  Q (backend s) /\ Forall P (heap s).
Proof.
  intros Hw Hk Hd Hx Hnew HQ Hboot.
  induction 1 as [i o s0 Hb|ev s s1 _ [IHq IHp] _ Hstep].
  - unfold boot in Hb. destruct (startup isWindows i o) as [b|e] eqn:E; [|done].
    injection Hb as <-. split; [by eapply Hboot|constructor].
  - by eapply (heap_forall_step isWindows P Q).
Qed.

(** X5. Off Windows, PowerShell is never launched: in every state of a
    running service the backend state is not powershell-child and no
    handle is a PowerShell handle. *)
Theorem powershell_only_on_windows s :
  reachable false s ->
  terminalBackend (backend s) <> PowershellChild
  /\ Forall (fun h => kind_of h <> PowershellChild) (heap s).
Proof.
  apply (heap_forall_reachable false
           (fun h => kind_of h <> PowershellChild)
           (fun b => terminalBackend b <> PowershellChild)).
  - intros d h. by destruct (write_identity d h) as (-> & _).
  - intros h. by destruct (kill_identity h) as (-> & _).
  - intros f c h. by destruct (data_identity f c h) as (-> & _).
  - intros h. by destruct (exit_identity h) as (-> & _).
  - intros o b h id Hb Hsp. destruct (onData_identity id h) as (-> & _).
    destruct o as [[] [] [] []], b as [[] [] []]; vm_compute in Hsp;
      try discriminate Hsp; by injection Hsp as <-.
  - intros o b Hb. destruct o as [[] [] [] []], b as [[] [] []];
      try (by destruct Hb); by vm_compute.
  - intros [] o b; cbn; [|done]. by intros [= <-].
Qed.

(** X6. The command line of a pipe-based handle is fixed by the host and
    the strategy, for as long as the service runs: on Windows the
    fallback module runs [wsl.exe bash] (never the PowerShell it was
    asked for) and the last resort runs [powershell.exe] without
    arguments; elsewhere the fallback module runs [bash] without
    arguments. *)
Theorem command_lines isWindows s ref h :
  reachable isWindows s ->
  heap s !! ref = Some h ->
  command_line h = expected_command_line isWindows h.
Proof.
  intros Hreach Hh.
  destruct (heap_forall_reachable isWindows
              (fun h => command_line h = expected_command_line isWindows h)
              (fun _ => True) s) as [_ Hall]; try done.
  - intros d h0. destruct (write_identity d h0) as (_ & -> & _).
    intros ->. destruct h0; cbn; [by destruct (np_write _ _)|done..].
  - intros h0. destruct (kill_identity h0) as (_ & -> & _).
    intros ->. destruct h0; cbn; [by destruct (np_kill _)|done..].
  - intros f c h0. destruct h0; cbn; [by destruct (np_data _ _)|done..].
  - intros h0. destruct (exit_identity h0) as (_ & -> & _).
    intros ->. destruct h0; cbn; [by destruct (np_exit _)|done..].
  - intros o b h0 id _ Hsp. destruct (onData_identity id h0) as (_ & -> & _).
    destruct isWindows, o as [[] [] [] []], b as [[] [] []];
      vm_compute in Hsp; try discriminate Hsp; by injection Hsp as <-.
  - by eapply Forall_lookup_1 in Hall.
Qed.

End HeapProperties.

(** ** Sessions: ownership, separation, life cycle *)

Section Sessions.
Context {Pty : Type} `{!NodePty Pty}.
Implicit Types (s : Server Pty) (h : Handle Pty).

Lemma bound_lt s id ref : invariant s -> bound s id ref -> ref < length (heap s).
Proof.
  intros Hinv Hb. destruct (inv_bound _ Hinv _ _ Hb) as (h & Hh & _).
  by eapply lookup_lt_Some.
Qed.

Lemma connection_bound isWindows id o s id' ref :
  sockets s !! id = None ->
  bound (connection isWindows id o s) id' ref <->
  (id' <> id /\ bound s id' ref)
  \/ (id' = id /\ ref = length (heap s)
      /\ exists h, (spawnPty isWindows o (backend s)).1.1 = Ok h).
Proof.
  intros Hfresh. unfold bound.
  destruct (connection_cases isWindows id o s)
    as (_ & [(e & He & _ & _ & ->)|(h & Hh & _ & _ & ->)]);
    rewrite lookup_insert; case_decide as Hd; cbn; rewrite ?He, ?Hh.
  - subst. split; [done|]. intros [[? _]|(_ & _ & h & ?)]; done.
  - split; [intros ?; left; split; [congruence|done]|].
    intros [[_ ?]|[? _]]; [done|congruence].
  - subst. split.
    + intros [= <-]. right. eauto.
    + intros [[? _]|(_ & -> & _)]; done.
  - split; [intros ?; left; split; [congruence|done]|].
    intros [[_ ?]|[? _]]; [done|congruence].
Qed.

Lemma insert_same_slot (l : list (Handle Pty)) r h0 h' ref h :
  l !! r = Some h0 -> <[r := h']> l !! ref = Some h ->
  (ref = r /\ h = h') \/ (ref <> r /\ l !! ref = Some h).
Proof.
  intros Hl. rewrite list_lookup_insert.
  case_decide as Hd; [|intros ?; right; split; [|done]].
  - intros [= <-]. left. by destruct Hd.
  - intros ->. apply Hd. split; [done|]. by eapply lookup_lt_Some.
Qed.

Lemma sessions_step isWindows ev s s1 :
  invariant s -> owned s -> separate s -> lifecycle s ->
  accepted ev s -> step isWindows ev s = Ok s1 ->
  owned s1 /\ separate s1 /\ lifecycle s1.
Proof.
  intros Hinv Hown Hsep Hlife Hacc Hstep.
  assert ((exists id o, ev = Connection id o)
          \/ (forall id o, ev <> Connection id o)) as [(id & o & ->)|Hno]
    by (destruct ev; [left; eauto|right; done..]).
  - (* a connection with a new id *)
    cbn in Hacc. injection Hstep as <-.
    pose proof (connection_bound isWindows id o s) as Hcb.
    assert (Hold : forall id' ref, bound s id' ref -> id' <> id).
    { intros id' ref Hb ->. unfold bound in Hb. by rewrite Hacc in Hb. }
    assert (Hnone : activePtys s !! id = None).
    { destruct (activePtys s !! id) as [r|] eqn:E; [|done].
      by destruct (Hold id r (inv_registry _ Hinv _ _ E)). }
    destruct (connection_cases isWindows id o s)
      as (_ & [(e & He & Hheap & Hact & _)|(h0 & Hh0 & Hheap & Hact & _)]).
    + (* refused *)
      assert (Hb1 : forall id' ref,
                 bound (connection isWindows id o s) id' ref <->
                 id' <> id /\ bound s id' ref).
      { intros id' ref. rewrite Hcb by done. rewrite He.
        split; [intros [?|(_ & _ & ? & ?)]; done|auto]. }
      split; [|split].
      * intros ref h. rewrite Hheap. intros Hh Hp.
        destruct (Hown ref h Hh Hp) as (id' & Hs & Hb).
        exists id'. split; [done|]. apply Hb1. eauto.
      * intros id1 id2 ref [_ H1]%Hb1 [_ H2]%Hb1. eauto.
      * intros id' ref h [Hne Hb]%Hb1. rewrite Hheap, Hact. by apply Hlife.
    + (* accepted *)
      assert (Hb1 : forall id' ref,
                 bound (connection isWindows id o s) id' ref <->
                 (id' <> id /\ bound s id' ref)
                 \/ (id' = id /\ ref = length (heap s))).
      { intros id' ref. rewrite Hcb by done. rewrite Hh0.
        split; [intros [?|(? & ? & _)]; auto|intros [?|[? ?]]; eauto]. }
      split; [|split].
      * intros ref h. rewrite Hheap.
        intros [[Hlt Hh]|[-> <-]]%lookup_snoc_Some Hp.
        -- destruct (Hown ref h Hh Hp) as (id' & Hs & Hb).
           exists id'. split; [done|]. apply Hb1. eauto.
        -- exists id. split; [|apply Hb1; auto].
           apply onData_subscriber. by rewrite onData_is_pipe in Hp.
      * intros id1 id2 ref [[_ H1]|[-> ->]]%Hb1 [[_ H2]|[-> E2]]%Hb1; eauto.
        -- apply (bound_lt _ _ _ Hinv) in H1. lia.
        -- apply (bound_lt _ _ _ Hinv) in H2. lia.
      * intros id' ref h [[Hne Hb]|[-> ->]]%Hb1; rewrite Hheap, Hact.
        -- rewrite lookup_insert_ne by done.
           rewrite (lookup_app_l _ _ _ (bound_lt _ _ _ Hinv Hb)).
           by apply Hlife.
        -- rewrite lookup_insert_eq, list_lookup_middle by done.
           intros [= <-] _. destruct (onData_identity id h0) as (_ & _ & _ & -> & _).
           destruct (spawned_pristine _ _ _ _ Hh0) as [_ Hpr].
           unfold signalled. destruct (child_of h0) as [c|]; [|done].
           by destruct (Hpr c eq_refl) as (-> & _).
  - (* any other event *)
    destruct (quiet_step isWindows ev s s1 Hno Hstep)
      as (_ & Hsock & Hact & Hheap).
    assert (Hb1 : forall id ref, bound s1 id ref <-> bound s id ref).
    { intros id ref. unfold bound. by rewrite Hsock. }
    split; [|split].
    + intros ref h Hh Hp.
      destruct Hheap as [Heq|(r & h0 & h' & Hh0 & Heq & Hop)];
        rewrite Heq in Hh.
      { destruct (Hown ref h Hh Hp) as (id & ? & ?). exists id.
        by rewrite Hb1. }
      destruct (insert_same_slot _ _ _ _ _ _ Hh0 Hh) as [[-> ->]|[Hne Hh']].
      * assert (is_pipe h' = is_pipe h0 /\ subscriber h' = subscriber h0)
          as [Hp' Hs'].
        { destruct ev as [? ?|? ?|?|? ? ?|?]; [done|..]; destruct_and?; subst.
          - split; [apply write_is_pipe|apply write_subscriber].
          - split; [apply kill_is_pipe|apply kill_subscriber].
          - split; [apply data_is_pipe|apply data_identity].
          - split; [apply exit_is_pipe|apply exit_subscriber]. }
        rewrite Hp' in Hp. destruct (Hown r h0 Hh0 Hp) as (id & ? & ?).
        exists id. rewrite Hb1, Hs'. done.
      * destruct (Hown ref h Hh' Hp) as (id & ? & ?). exists id.
        by rewrite Hb1.
    + intros id1 id2 ref H1%Hb1 H2%Hb1. eauto.
    + intros id ref h Hb%Hb1 Hh Hp.
      assert (Hreg : forall r, activePtys s !! id = Some r -> r = ref).
      { intros r Ha. apply (inv_registry _ Hinv) in Ha.
        unfold bound in Ha, Hb. congruence. }
      destruct Hheap as [Heq|(r & h0 & h' & Hh0 & Heq & Hop)];
        rewrite Heq in Hh.
      { (* the heap is as it was *)
        specialize (Hlife id ref h Hb Hh Hp).
        destruct Hact as [->|(id0 & -> & ->)]; [done|].
        rewrite lookup_delete. case_decide; [subst|done].
        cbn in Hstep. injection Hstep as <-. unfold disconnect in Heq.
        unfold bound in Hb. rewrite Hb in Heq.
        destruct (activePtys s !! id) as [r|] eqn:Ha; [|done].
        rewrite (Hreg r eq_refl), Hh in Heq. cbn in Heq.
        assert (Hid : (handle_kill h).1 = h).
        { apply (f_equal (fun l => l !! ref)) in Heq.
          rewrite list_lookup_insert_eq in Heq by (by eapply lookup_lt_Some).
          congruence. }
        destruct (kill_identity h) as (_ & _ & _ & Hk).
        destruct (Hk Hp) as [_ Hsig]. rewrite Hid in Hsig.
        destruct (has_exited h); auto. }
      destruct (insert_same_slot _ _ _ _ _ _ Hh0 Hh) as [[-> ->]|[Hne Hh']].
      * (* the session's own handle changed *)
        destruct ev as [? ?|id0 data|id0|r' from chunk|r'];
          [done|..]; destruct_and?; subst.
        -- destruct Hact as [->|(? & ? & _)]; [|done].
           rewrite write_is_pipe in Hp.
           destruct (write_identity (input_string data) h0) as (_ & _ & _ & Hw).
           destruct (Hw Hp) as [-> ->]. exact (Hlife _ _ _ Hb Hh0 Hp).
        -- destruct Hact as [Heq'|(id1 & [= <-] & ->)].
           { cbn in Hstep. injection Hstep as <-. unfold disconnect in Heq'.
             assert (Hb0 := inv_registry _ Hinv _ _ H).
             unfold bound in Hb0. rewrite Hb0, H in Heq'. cbn in Heq'.
             apply (f_equal (fun m => m !! id0)) in Heq'.
             rewrite lookup_delete_eq, H in Heq'. done. }
           assert (id = id0) as ->.
           { eapply Hsep; [done|]. by apply (inv_registry _ Hinv). }
           rewrite lookup_delete_eq. rewrite kill_is_pipe in Hp.
           destruct (kill_identity h0) as (_ & _ & _ & Hk).
           destruct (Hk Hp) as [-> Hsig].
           destruct (has_exited h0); auto.
        -- destruct Hact as [->|(? & ? & _)]; [|done].
           rewrite data_is_pipe in Hp.
           destruct (data_identity from chunk h0) as (_ & _ & Hsame).
           rewrite (Hsame Hp). exact (Hlife _ _ _ Hb Hh0 Hp).
        -- destruct Hact as [->|(? & ? & _)]; [|done].
           rewrite exit_is_pipe in Hp.
           destruct (exit_identity h0) as (_ & _ & _ & Hx).
           destruct (Hx Hp) as [-> ->].
           specialize (Hlife id r h0 Hb Hh0 Hp).
           destruct (activePtys s !! id); auto.
      * (* another handle changed *)
        specialize (Hlife id ref h Hb Hh' Hp).
        destruct Hact as [->|(id0 & -> & ->)]; [done|].
        rewrite lookup_delete. case_decide; [subst id0|done].
        destruct Hop as [Ha _]. by destruct Hne; rewrite (Hreg r Ha).
Qed.

Lemma reachable_sessions isWindows s :
  reachable isWindows s -> owned s /\ separate s /\ lifecycle s.
Proof.
  induction 1 as [i o s0 Hb|ev s s1 Hreach (Hown & Hsep & Hlife) Hacc Hstep].
  - unfold boot in Hb. destruct (startup isWindows i o); [|done].
    injection Hb as <-. split; [|split].
    + intros ref h; cbn. by rewrite lookup_nil.
    + intros id1 id2 ref. unfold bound; cbn. by rewrite lookup_empty.
    + intros id ref h. unfold bound; cbn. by rewrite lookup_empty.
  - eapply sessions_step; eauto using reachable_invariant.
Qed.

End Sessions.

Section SessionResults.
Context {Pty : Type} `{!NodePty Pty}.
Implicit Types (s : Server Pty) (h : Handle Pty).

(** X7. The relay signals the processes of torn-down sessions and no
    others. In every state of a running service, the process of a
    pipe-based handle that is still registered has not been signalled;
    once its session is no longer registered, the process has been
    signalled or had exited by itself. *)
Theorem kill_follows_teardown isWindows s id ref h :
  reachable isWindows s ->
  bound s id ref -> heap s !! ref = Some h -> is_pipe h = true ->
  (is_Some (activePtys s !! id) -> signalled h = false)
  /\ (activePtys s !! id = None -> signalled h = true \/ has_exited h = true).
Proof.
  intros Hreach Hb Hh Hp.
  destruct (reachable_sessions _ _ Hreach) as (_ & _ & Hlife).
  specialize (Hlife id ref h Hb Hh Hp).
  destruct (activePtys s !! id); split; try done; by intros [? ?].
Qed.

(** X8. Sessions do not share processes: in every state of a running
    service each registered id names a handle that exists, and two
    different ids never name the same handle. *)
Theorem sessions_are_separate isWindows s id1 id2 ref :
  reachable isWindows s ->
  activePtys s !! id1 = Some ref ->
  is_Some (heap s !! ref)
  /\ (activePtys s !! id2 = Some ref -> id1 = id2).
Proof.
  intros Hreach Ha.
  pose proof (reachable_invariant _ _ Hreach) as Hinv.
  destruct (reachable_sessions _ _ Hreach) as (_ & Hsep & _).
  pose proof (inv_registry _ Hinv _ _ Ha) as Hb. split.
  - destruct (inv_bound _ Hinv _ _ Hb) as (h & -> & _). eauto.
  - intros Ha2. eapply Hsep; [done|]. by apply (inv_registry _ Hinv).
Qed.

(** X9. A refused connection leaves nothing behind: when [spawnPty]
    throws, the socket gets no listeners, so later input and disconnect
    events on it change nothing, and no handle was added to the heap. *)
Theorem refused_connection_is_inert isWindows s id o e data :
  (spawnPty isWindows o (backend s)).1.1 = Throw e ->
  let s1 := connection isWindows id o s in
  heap s1 = heap s
  /\ terminal_input id data s1 = Ok s1
  /\ disconnect id s1 = s1.
Proof.
  intros He s1.
  destruct (connection_cases isWindows id o s)
    as (_ & [(e' & _ & Hheap & _ & Hsock)|(h & Hh & _)]); [|congruence].
  fold s1 in Hheap, Hsock. split; [done|].
  unfold terminal_input, disconnect.
  rewrite Hsock, lookup_insert_eq. done.
Qed.


End SessionResults.

(** ** The output relay *)

Section OutputRelay.
Context {Pty : Type} `{!NodePty Pty}.
Implicit Types (s : Server Pty) (h : Handle Pty).

Lemma emitted_emit_same (ss : gmap string Socket) id data k :
  ss !! id = Some k ->
  emitted <$> (socket_emit id data ss !! id) = Some (emitted k ++ [data]).
Proof. intros Hk. unfold socket_emit. by rewrite lookup_alter_eq, Hk. Qed.

Lemma emitted_calls s id sub data (heap' : list (Handle Pty)) :
  is_Some (sockets s !! id) ->
  emitted_on {| backend := backend s; heap := heap';
                activePtys := activePtys s;
                sockets := run_calls (slot_of sub data) (sockets s) |} id
  = emitted_on s id ++ (if bool_decide (sub = Some id) then [data] else []).
Proof.
  intros [k Hk]. unfold emitted_on; cbn. rewrite Hk.
  destruct sub as [id0|]; cbn; [|by rewrite Hk, app_nil_r].
  unfold socket_emit. rewrite lookup_alter. case_decide as Hd.
  - subst. rewrite Hk. cbn. by rewrite bool_decide_eq_true_2.
  - rewrite Hk, bool_decide_eq_false_2, app_nil_r; [done|congruence].
Qed.

Lemma all_pipe_step isWindows ev s s1 :
  pty (backend s) = FallbackModule -> all_pipe s ->
  step isWindows ev s = Ok s1 ->
  pty (backend s1) = FallbackModule /\ all_pipe s1.
Proof.
  intros Hp Hall Hstep.
  eapply (heap_forall_step isWindows (fun h => is_pipe h = true)
            (fun b => pty b = FallbackModule)); eauto.
  - intros d h. by rewrite write_is_pipe.
  - intros h. by rewrite kill_is_pipe.
  - intros f c h. by rewrite data_is_pipe.
  - intros h. by rewrite exit_is_pipe.
  - intros o b h id Hb Hsp. rewrite onData_is_pipe.
    destruct isWindows, o as [[] [] [] []], b as [[] [] []];
      try discriminate Hb; vm_compute in Hsp; try discriminate Hsp;
      by injection Hsp as <-.
  - intros o b. apply spawnPty_pty_stable.
Qed.

Lemma outputs_of_cons notice ref gone ev evs :
  outputs_of notice ref gone (ev :: evs)
  = outputs_of notice ref gone [ev]
    ++ outputs_of notice ref
         (gone || match ev with
                  | ProcessExit r => bool_decide (r = ref)
                  | _ => false
                  end) evs.
Proof.
  destruct ev as [| | |r ? ?|r]; cbn; rewrite ?orb_false_r; try done.
  - by rewrite app_nil_r.
  - case_bool_decide; rewrite ?orb_false_r, ?orb_true_r, ?app_nil_r; done.
Qed.

Lemma step_output isWindows ev s s1 id ref h :
  invariant s -> owned s -> all_pipe s ->
  accepted ev s -> step isWindows ev s = Ok s1 ->
  bound s id ref -> heap s !! ref = Some h ->
  bound s1 id ref
  /\ exists h1,
       heap s1 !! ref = Some h1
       /\ exit_notice_of h1 = exit_notice_of h
       /\ has_exited h1
          = has_exited h || match ev with
                            | ProcessExit r => bool_decide (r = ref)
                            | _ => false
                            end
       /\ emitted_on s1 id
          = emitted_on s id
            ++ outputs_of (exit_notice_of h) ref (has_exited h) [ev].
Proof.
  intros Hinv Hown Hall Hacc Hstep Hb Hh.
  assert (Hp : is_pipe h = true) by (by eapply Forall_lookup_1 in Hall).
  assert (Hsub : subscriber h = Some id).
  { destruct (inv_bound _ Hinv _ _ Hb) as (h' & Hh' & Hok).
    assert (h' = h) as -> by congruence. by apply Hok. }
  assert (Hsome : is_Some (sockets s !! id)).
  { unfold bound in Hb. destruct (sockets s !! id); [eauto|done]. }
  assert (Hlt : ref < length (heap s)) by (by eapply lookup_lt_Some).
  destruct ev as [id' o|id' data|id'|r from chunk|r]; cbn in Hstep, Hacc |- *;
    rewrite ?orb_false_r, ?app_nil_r.
  - (* connection *)
    injection Hstep as <-.
    assert (id <> id') as Hne.
    { intros ->. destruct Hsome as [k Hk]. congruence. }
    split; [apply connection_bound; auto|].
    exists h. unfold emitted_on.
    destruct (connection_cases isWindows id' o s)
      as (_ & [(e & _ & -> & _ & ->)|(h0 & _ & -> & _ & ->)]);
      rewrite lookup_insert_ne by done; split_and!; try done.
    by apply lookup_app_l_Some.
  - (* input *)
    destruct (quiet_step isWindows (TerminalInput id' data) s s1)
      as (_ & Hsock & _ & Hheap); [done|done|].
    split; [unfold bound; by rewrite Hsock|].
    assert (sockets s1 = sockets s) as Hss.
    { unfold terminal_input in Hstep.
      destruct (_ ≫= _); [|congruence]. destruct (truthy _); [|congruence].
      destruct (heap s !! _); [|congruence].
      destruct (handle_write _ _) as [? [?|]]; [done|]. by injection Hstep as <-. }
    unfold emitted_on. rewrite Hss.
    destruct Hheap as [->|(r & h0 & h' & Hh0 & -> & _ & ->)]; [by exists h|].
    destruct (decide (r = ref)) as [->|Hne].
    + assert (h0 = h) as -> by congruence.
      eexists. rewrite list_lookup_insert_eq by done. split; [done|].
      destruct (write_identity (input_string data) h) as (_ & _ & -> & Hw).
      by destruct (Hw Hp) as [_ ->].
    + exists h. by rewrite list_lookup_insert_ne.
  - (* disconnect *)
    destruct (quiet_step isWindows (Disconnect id') s s1)
      as (_ & Hsock & _ & Hheap); [done|done|].
    split; [unfold bound; by rewrite Hsock|].
    assert (sockets s1 = sockets s) as Hss.
    { injection Hstep as <-. unfold disconnect.
      destruct (_ ≫= _); [|done]. by destruct (activePtys s !! _). }
    unfold emitted_on. rewrite Hss.
    destruct Hheap as [->|(r & h0 & h' & Hh0 & -> & _ & ->)]; [by exists h|].
    destruct (decide (r = ref)) as [->|Hne].
    + assert (h0 = h) as -> by congruence.
      eexists. rewrite list_lookup_insert_eq by done. split; [done|].
      destruct (kill_identity h) as (_ & _ & -> & Hk).
      by destruct (Hk Hp) as [-> _].
    + exists h. by rewrite list_lookup_insert_ne.
  - (* output *)
    injection Hstep as <-. unfold process_data.
    destruct (heap s !! r) as [h0|] eqn:Hh0.
    2:{ split; [done|]. exists h.
        rewrite bool_decide_eq_false_2 by congruence.
        by rewrite app_nil_r. }
    assert (Hp0 : is_pipe h0 = true) by (by eapply Forall_lookup_1 in Hall).
    rewrite (pipe_data from chunk h0 Hp0).
    split; [unfold bound; cbn; by rewrite run_calls_ptyProcess|].
    rewrite emitted_calls by done. cbn [heap].
    destruct (decide (r = ref)) as [->|Hne].
    + assert (h0 = h) as -> by congruence.
      exists h. rewrite list_lookup_insert_eq by done.
      rewrite Hsub, !bool_decide_eq_true_2 by done. done.
    + exists h. rewrite list_lookup_insert_ne by done.
      rewrite (bool_decide_eq_false_2 (r = ref)) by done.
      rewrite bool_decide_eq_false_2; [done|].
      intros Hs0. destruct (Hown r h0 Hh0 Hp0) as (id0 & Hs & Hb0).
      assert (id0 = id) as -> by congruence.
      unfold bound in Hb, Hb0. congruence.
  - (* exit *)
    injection Hstep as <-. unfold process_exit.
    destruct (heap s !! r) as [h0|] eqn:Hh0.
    2:{ split; [done|]. exists h.
        rewrite bool_decide_eq_false_2 by congruence.
        by rewrite orb_false_r, app_nil_r. }
    assert (Hp0 : is_pipe h0 = true) by (by eapply Forall_lookup_1 in Hall).
    destruct (has_exited h0) eqn:Hx0.
    { split; [done|]. exists h. case_bool_decide as Hr.
      - subst. assert (h0 = h) as -> by congruence.
        by rewrite Hx0, app_nil_r.
      - by rewrite orb_false_r, app_nil_r. }
    destruct (pipe_exit h0 Hp0) as (Hcalls & _ & _ & Hn).
    destruct (exit_identity h0) as (_ & _ & _ & Hxi).
    destruct (Hxi Hp0) as [_ Hgone].
    destruct (handle_exit h0) as [h0' cs]. cbn in Hcalls, Hn, Hgone. subst cs.
    split; [unfold bound; cbn; by rewrite run_calls_ptyProcess|].
    rewrite emitted_calls by done. cbn [heap].
    destruct (decide (r = ref)) as [->|Hne].
    + assert (h0 = h) as -> by congruence.
      exists h0'. rewrite list_lookup_insert_eq by done.
      rewrite Hsub, !bool_decide_eq_true_2 by done.
      rewrite Hx0, Hgone. done.
    + exists h. rewrite list_lookup_insert_ne by done.
      rewrite (bool_decide_eq_false_2 (r = ref)) by done.
      rewrite orb_false_r, app_nil_r.
      rewrite bool_decide_eq_false_2; [by rewrite app_nil_r|].
      intros Hs0. destruct (Hown r h0 Hh0 Hp0) as (id0 & Hs & Hb0).
      assert (id0 = id) as -> by congruence.
      unfold bound in Hb, Hb0. congruence.
Qed.

(** X11. The output relay is order-preserving and isolated. In a service
    without node-pty handles (its [pty] holds the fallback module), take
    a socket whose listeners are bound to a handle. Along any run, what
    is emitted on that socket grows by exactly the output of that
    handle's process: each chunk of its stdout or stderr, converted by
    [toString()], in the order of arrival, then the exit notice once,
    at the first exit. Nothing of another session's process and no
    failure notice of another connection is emitted on it. *)
Theorem output_relay isWindows s s' evs id ref h :
  reachable isWindows s ->
  pty (backend s) = FallbackModule -> all_pipe s ->
  bound s id ref -> heap s !! ref = Some h ->
  trace isWindows s evs s' ->
  emitted_on s' id
  = emitted_on s id ++ outputs_of (exit_notice_of h) ref (has_exited h) evs.
Proof.
  intros Hreach Hpty Hall Hb Hh Htr.
  pose proof (reachable_invariant _ _ Hreach) as Hinv.
  destruct (reachable_sessions _ _ Hreach) as (Hown & Hsep & Hlife).
  clear Hreach. revert h Hinv Hown Hsep Hlife Hpty Hall Hb Hh.
  induction Htr as [s|ev evs s s1 s' Hacc Hstep Htr IH];
    intros h Hinv Hown Hsep Hlife Hpty Hall Hb Hh.
  - cbn. by rewrite app_nil_r.
  - destruct (step_output _ _ _ _ _ _ _ Hinv Hown Hall Hacc Hstep Hb Hh)
      as (Hb1 & h1 & Hh1 & Hn1 & Hx1 & Hem).
    destruct (sessions_step _ _ _ _ Hinv Hown Hsep Hlife Hacc Hstep)
      as (Hown1 & Hsep1 & Hlife1).
    destruct (all_pipe_step _ _ _ _ Hpty Hall Hstep) as [Hpty1 Hall1].
    pose proof (step_invariant _ _ _ _ Hinv Hacc Hstep) as Hinv1.
    rewrite (IH h1 Hinv1 Hown1 Hsep1 Hlife1 Hpty1 Hall1 Hb1 Hh1).
    rewrite Hem, Hn1, Hx1, (outputs_of_cons _ _ _ ev evs).
    by rewrite app_assoc.
Qed.

End OutputRelay.

(** ** More on runs and on handles *)

Section RunsAndHandles.
Context {Pty : Type} `{!NodePty Pty}.
Implicit Types (s : Server Pty) (h : Handle Pty).

(** X12. Only connections touch the backend state: a run without
    connection events (input, disconnections, process output and exits
    in any order) ends with [pty], [fallbackPty] and [terminalBackend]
    as they were. *)
Theorem only_connections_demote isWindows evs s s' :
  Forall (fun ev => forall id o, ev <> Connection id o) evs ->
  run isWindows evs s = Ok s' ->
  backend s' = backend s.
Proof.
  intros Hall. revert s. induction Hall as [|ev evs Hev _ IH]; intros s; cbn.
  - by intros [= <-].
  - destruct (step isWindows ev s) as [s1|e] eqn:E; [|done]. intros Hrun.
    destruct (quiet_step isWindows ev s s1 Hev E) as (<- & _). by apply IH.
Qed.

Lemma step_silent isWindows ev s s1 id k :
  invariant s -> owned s -> all_pipe s ->
  accepted ev s -> step isWindows ev s = Ok s1 ->
  sockets s !! id = Some k -> ptyProcess k = None ->
  exists k1, sockets s1 !! id = Some k1 /\ ptyProcess k1 = None
             /\ emitted k1 = emitted k.
Proof.
  intros Hinv Hown Hall Hacc Hstep Hk Hnone.
  assert (Hnot : forall r h0, heap s !! r = Some h0 -> subscriber h0 <> Some id).
  { intros r h0 Hh0 Hs.
    assert (Hp0 : is_pipe h0 = true) by (by eapply Forall_lookup_1 in Hall).
    destruct (Hown r h0 Hh0 Hp0) as (id0 & Hs0 & Hb0).
    assert (id0 = id) as -> by congruence.
    unfold bound in Hb0. rewrite Hk in Hb0. cbn in Hb0. congruence. }
  assert (Hquiet : forall sub data,
             sub <> Some id ->
             run_calls (slot_of sub data) (sockets s) !! id = Some k).
  { intros [id0|] data Hs; cbn; [|done].
    unfold socket_emit. rewrite lookup_alter_ne; [done|congruence]. }
  destruct ev as [id' o|id' data|id'|r from chunk|r]; cbn in Hstep, Hacc.
  - injection Hstep as <-. exists k.
    assert (id' <> id) by congruence.
    destruct (connection_cases isWindows id' o s)
      as (_ & [(e & _ & _ & _ & ->)|(h0 & _ & _ & _ & ->)]);
      by rewrite lookup_insert_ne.
  - exists k. unfold terminal_input in Hstep.
    destruct (_ ≫= _); [|by injection Hstep as <-].
    destruct (truthy _); [|by injection Hstep as <-].
    destruct (heap s !! _); [|by injection Hstep as <-].
    destruct (handle_write _ _) as [? [?|]]; [done|]. by injection Hstep as <-.
  - exists k. injection Hstep as <-. unfold disconnect.
    destruct (_ ≫= _); [|done]. by destruct (activePtys s !! _).
  - exists k. injection Hstep as <-. unfold process_data.
    destruct (heap s !! r) as [h0|] eqn:Hh0; [|done].
    assert (Hp0 : is_pipe h0 = true) by (by eapply Forall_lookup_1 in Hall).
    rewrite (pipe_data from chunk h0 Hp0). cbn. rewrite Hquiet; eauto.
  - exists k. injection Hstep as <-. unfold process_exit.
    destruct (heap s !! r) as [h0|] eqn:Hh0; [|done].
    destruct (has_exited h0); [done|].
    assert (Hp0 : is_pipe h0 = true) by (by eapply Forall_lookup_1 in Hall).
    destruct (pipe_exit h0 Hp0) as (Hcalls & _).
    destruct (handle_exit h0) as [h0' cs]. cbn in Hcalls. subst cs. cbn.
    rewrite Hquiet; eauto.
Qed.

(** X14. A socket without listeners (a refused connection) stays
    silent: in a service without node-pty handles, whatever happens
    afterwards, nothing more is emitted on it, so a refused client sees
    the "Unable to start" notice and nothing else. *)
Theorem refused_socket_stays_silent isWindows s s' evs id k :
  reachable isWindows s ->
  pty (backend s) = FallbackModule -> all_pipe s ->
  sockets s !! id = Some k -> ptyProcess k = None ->
  trace isWindows s evs s' ->
  emitted_on s' id = emitted k.
Proof.
  intros Hreach Hpty Hall Hk Hnone Htr.
  pose proof (reachable_invariant _ _ Hreach) as Hinv.
  destruct (reachable_sessions _ _ Hreach) as (Hown & Hsep & Hlife).
  clear Hreach. revert k Hinv Hown Hsep Hlife Hpty Hall Hk Hnone.
  induction Htr as [s|ev evs s s1 s' Hacc Hstep Htr IH];
    intros k Hinv Hown Hsep Hlife Hpty Hall Hk Hnone.
  - unfold emitted_on. by rewrite Hk.
  - destruct (step_silent _ _ _ _ _ _ Hinv Hown Hall Hacc Hstep Hk Hnone)
      as (k1 & Hk1 & Hnone1 & <-).
    destruct (sessions_step _ _ _ _ Hinv Hown Hsep Hlife Hacc Hstep)
      as (Hown1 & Hsep1 & Hlife1).
    destruct (all_pipe_step _ _ _ _ Hpty Hall Hstep) as [Hpty1 Hall1].
    pose proof (step_invariant _ _ _ _ Hinv Hacc Hstep) as Hinv1.
    by apply IH.
Qed.

End RunsAndHandles.

(** ** The further properties at work *)

(** X1 at work: node-pty and the fallback module fail, PowerShell
    works. *)
Lemma spawnPty_returns_first_working_witness :
  let h : Handle unit := PowerShell PowerShellFallback.create in
  (spawnPty (Pty:=unit) true only_powershell initial_backend).1.1 = Ok h
  /\ (spawnPty (Pty:=unit) true only_powershell initial_backend).2
     = [NodePtyBackend; WslFallback] ++ [kind_of h]
  /\ pristine h.
Proof.
  intros h.
  pose proof (spawnPty_returns_first_working true only_powershell
                initial_backend h eq_refl) as (Ht & _ & _ & Hp).
  split; [reflexivity|]. split; [exact Ht|exact Hp].
Defined.

(** X2 at work: node-pty spawns at once. *)
Lemma spawnPty_first_attempt_works_witness :
  works all_work (strategy_of (pty initial_backend)) = true
  /\ exists h,
       spawnPty (Pty:=unit) false all_work initial_backend
       = (Ok h, initial_backend, [NodePtyBackend])
       /\ kind_of h = NodePtyBackend.
Proof.
  split; [reflexivity|].
  exact (spawnPty_first_attempt_works false all_work initial_backend eq_refl).
Defined.

Lemma initial_backend_consistent : consistent initial_backend.
Proof. by split. Qed.

(** X3 at work: a Windows host on which only PowerShell works. *)
Lemma spawnPty_powershell_backstop_witness :
  consistent initial_backend
  /\ terminalBackend initial_backend <> PowershellChild
  /\ powershellSpawns only_powershell = true
  /\ exists h, (spawnPty (Pty:=unit) true only_powershell initial_backend).1.1
               = Ok h.
Proof.
  assert (Hne : terminalBackend initial_backend <> PowershellChild) by done.
  split; [exact initial_backend_consistent|]. split; [exact Hne|].
  split; [reflexivity|].
  exact (spawnPty_powershell_backstop only_powershell initial_backend
           initial_backend_consistent Hne eq_refl).
Defined.

(** X4 at work: after a demotion to powershell-child, a connection on a
    Windows host where only PowerShell works is refused. *)
Lemma spawnPty_after_powershell_witness :
  let b := {| pty := FallbackModule; fallbackPty := true;
              terminalBackend := PowershellChild |} in
  terminalBackend b = PowershellChild
  /\ (spawnPty (Pty:=unit) true only_powershell b).2 = [WslFallback]
  /\ (spawnPty (Pty:=unit) true only_powershell b).1.1
     = Throw (SpawnFailed WslFallback).
Proof.
  intros b.
  pose proof (spawnPty_after_powershell true only_powershell b eq_refl)
    as (Ht & _ & Hthrow).
  split; [reflexivity|]. split; [exact Ht|exact (Hthrow eq_refl)].
Defined.

Lemma reachable_windows_without_node_pty :
  reachable true windows_without_node_pty.
Proof. by apply (reach_boot true false all_work). Qed.

Lemma reachable_one_session id :
  reachable true (after true [Connection id all_work] windows_without_node_pty).
Proof.
  apply (reach_step true (Connection id all_work) windows_without_node_pty).
  - apply reachable_windows_without_node_pty.
  - reflexivity.
  - reflexivity.
Qed.

(** X5 at work: a Linux service after a connection that fell back. *)
Lemma powershell_only_on_windows_witness :
  let s := after false [Connection "c1" no_native] (fresh initial_backend) in
  reachable false s
  /\ terminalBackend (backend s) <> PowershellChild
  /\ Forall (fun h => kind_of h <> PowershellChild) (heap s).
Proof.
  intros s.
  assert (H : reachable false s).
  { apply (reach_step false (Connection "c1" no_native) (fresh initial_backend)).
    - by apply (reach_boot false true all_work).
    - reflexivity.
    - reflexivity. }
  split; [exact H|]. exact (powershell_only_on_windows s H).
Defined.

(** X6 at work: the command line of a fallback session on Windows. *)
Lemma command_lines_witness :
  let s := after true [Connection "c1" all_work] windows_without_node_pty in
  let h := Wsl (PtyWslFallback.onData "c1"
                  (PtyWslFallback.spawn true "powershell.exe" [])) in
  reachable true s /\ heap s !! 0 = Some h
  /\ command_line h = Some ("wsl.exe", ["bash"]).
Proof.
  intros s h. split; [apply reachable_one_session|]. split; [reflexivity|].
  exact (command_lines true s 0 h (reachable_one_session "c1") eq_refl).
Defined.

(** X7 at work: "c1" is registered and its process is not signalled;
    after the disconnection it is. *)
Lemma kill_follows_teardown_witness :
  let s := after true [Connection "c1" all_work] windows_without_node_pty in
  let h := Wsl (PtyWslFallback.onData "c1"
                  (PtyWslFallback.spawn true "powershell.exe" [])) in
  reachable true s /\ bound s "c1" 0 /\ heap s !! 0 = Some h
  /\ is_pipe h = true /\ is_Some (activePtys s !! "c1")
  /\ signalled h = false.
Proof.
  intros s h.
  assert (Hreg : is_Some (activePtys s !! "c1")) by (by exists 0).
  split; [apply reachable_one_session|]. split; [reflexivity|].
  split; [reflexivity|]. split; [reflexivity|]. split; [exact Hreg|].
  exact (proj1 (kill_follows_teardown true s "c1" 0 h
                  (reachable_one_session "c1") eq_refl eq_refl eq_refl) Hreg).
Defined.

(** X8 at work. *)
Lemma sessions_are_separate_witness :
  let s := after true [Connection "c1" all_work] windows_without_node_pty in
  reachable true s /\ activePtys s !! "c1" = Some 0
  /\ is_Some (heap s !! 0).
Proof.
  intros s. split; [apply reachable_one_session|]. split; [reflexivity|].
  exact (proj1 (sessions_are_separate true s "c1" "c2" 0
                  (reachable_one_session "c1") eq_refl)).
Defined.

(** X9 at work: every strategy fails for "c3". *)
Lemma refused_connection_is_inert_witness :
  let s1 := connection true "c3" nothing_works windows_without_node_pty in
  (spawnPty (Pty:=unit) true nothing_works (backend windows_without_node_pty)).1.1
  = Throw (SpawnFailed PowershellChild)
  /\ terminal_input "c3" (Text "x") s1 = Ok s1
  /\ disconnect "c3" s1 = s1.
Proof.
  intros s1. split; [reflexivity|].
  exact (proj2 (refused_connection_is_inert true windows_without_node_pty "c3"
                  nothing_works _ (Text "x") eq_refl)).
Defined.

Lemma reachable_two_sessions :
  reachable true (after true [Connection "c1" all_work; Connection "c2" all_work]
                        windows_without_node_pty).
Proof.
  apply (reach_step true (Connection "c2" all_work)
           (after true [Connection "c1" all_work] windows_without_node_pty)).
  - apply reachable_one_session.
  - reflexivity.
  - reflexivity.
Qed.


(** X11 at work: output of two sessions, interleaved; the process of
    "c1" exits. *)
Lemma output_relay_witness :
  let s := after true [Connection "c1" all_work; Connection "c2" all_work]
                 windows_without_node_pty in
  let h := Wsl (PtyWslFallback.onData "c1"
                  (PtyWslFallback.spawn true "powershell.exe" [])) in
  let evs := [ProcessData 0 Stdout [0x61%N]; ProcessData 1 Stdout [0x62%N];
              ProcessData 0 Stderr [0x63%N]; ProcessExit 0; ProcessExit 0;
              TerminalInput "c2" (Text "x")] in
  reachable true s
  /\ pty (backend s) = FallbackModule /\ all_pipe s
  /\ bound s "c1" 0 /\ heap s !! 0 = Some h
  /\ trace true s evs (after true evs s)
  /\ emitted_on (after true evs s) "c1"
     = ["a"; "c"; PtyWslFallback.exit_notice].
Proof.
  intros s h evs.
  assert (Hall : all_pipe s) by (repeat constructor).
  assert (Htr : trace true s evs (after true evs s)).
  { repeat (eapply trace_cons; [exact I|reflexivity|]). apply trace_nil. }
  split; [apply reachable_two_sessions|]. split; [reflexivity|].
  split; [exact Hall|]. split; [reflexivity|]. split; [reflexivity|].
  split; [exact Htr|].
  exact (output_relay true s _ evs "c1" 0 h reachable_two_sessions
           eq_refl Hall eq_refl eq_refl Htr).
Defined.

(** X12 at work. *)
Lemma only_connections_demote_witness :
  let s := after true [Connection "c1" all_work] windows_without_node_pty in
  let evs := [TerminalInput "c1" (Text "x"); ProcessExit 0; Disconnect "c1"] in
  Forall (fun ev => forall id o, ev <> Connection id o) evs
  /\ run true evs s = Ok (after true evs s)
  /\ backend (after true evs s) = backend s.
Proof.
  intros s evs.
  assert (Hev : Forall (fun ev => forall id o, ev <> Connection id o) evs)
    by (repeat constructor; discriminate).
  split; [exact Hev|]. split; [reflexivity|].
  exact (only_connections_demote true evs s _ Hev eq_refl).
Defined.

(** X14 at work: "c3" is refused, then another session produces
    output. *)
Lemma refused_socket_stays_silent_witness :
  let s := after true [Connection "c3" nothing_works]
                 windows_without_node_pty in
  let k := {| emitted := [unable_notice]; disconnected := true;
              ptyProcess := None |} in
  let evs := [Connection "c1" all_work;
              ProcessData 0 Stdout [0x61%N]; TerminalInput "c3" (Text "x")] in
  reachable true s
  /\ pty (backend s) = FallbackModule /\ all_pipe s
  /\ sockets s !! "c3" = Some k
  /\ trace true s evs (after true evs s)
  /\ emitted_on (after true evs s) "c3" = [unable_notice].
Proof.
  intros s k evs.
  assert (H : reachable true s).
  { apply (reach_step true (Connection "c3" nothing_works)
             windows_without_node_pty).
    - apply reachable_windows_without_node_pty.
    - reflexivity.
    - reflexivity. }
  assert (Hall : all_pipe s) by constructor.
  assert (Htr : trace true s evs (after true evs s)).
  { eapply trace_cons; [reflexivity|reflexivity|].
    repeat (eapply trace_cons; [exact I|reflexivity|]). apply trace_nil. }
  split; [exact H|]. split; [reflexivity|]. split; [exact Hall|].
  split; [reflexivity|]. split; [exact Htr|].
  exact (refused_socket_stays_silent true s _ evs "c3" k H eq_refl Hall
           eq_refl eq_refl Htr).
Defined.

(** ** Binary payloads of well-formed UTF-8 *)

Section Utf8.

Lemma all_below_iter n p :
  (N.iter n (fun st : N * bool => (N.succ st.1, st.2 && p st.1)) (0%N, true)).1 = n
  /\ ((N.iter n (fun st : N * bool => (N.succ st.1, st.2 && p st.1)) (0%N, true)).2 = true
      -> forall i, (i < n)%N -> p i = true).
Proof.
  induction n as [|n [IH1 IH2]] using N.peano_ind.
  - split; [done|]. intros _ i Hi. lia.
  - rewrite N.iter_succ. cbn. rewrite IH1. split; [done|].
    intros [Hacc Hp]%andb_true_iff i Hi.
    destruct (decide (i = n)) as [->|Hne]; [done|]. apply IH2; [done|lia].
Qed.

Lemma all_below_spec n p i :
  all_below n p = true -> (i < n)%N -> p i = true.
Proof. intros H. by apply all_below_iter. Qed.

Lemma ascii_checked : all_below 128 ascii_decodes = true.
Proof. vm_compute. reflexivity. Qed.

Lemma heads_checked :
  all_below 0x4400
    (fun hi => (hi <? 2)%N || ((0x360 <=? hi)%N && (hi <? 0x380)%N)
               || head_decodes hi) = true.
Proof. vm_compute. reflexivity. Qed.

Lemma tails_checked : all_below 64 tail_decodes = true.
Proof. vm_compute. reflexivity. Qed.

Lemma decode_feed st bs rest :
  decode st (bs ++ rest) = (feed st bs).1 ++ decode (feed st bs).2 rest.
Proof.
  revert st. induction bs as [|b bs IH]; intros st; [done|].
  cbn [app decode feed].
  destruct (match st with None => lead b | Some p => continuation p b end)
    as [out st'].
  rewrite IH. destruct (feed st' bs) as [out' st'']. cbn.
  by rewrite app_assoc.
Qed.

Lemma feed_app st bs1 bs2 :
  feed st (bs1 ++ bs2)
  = ((feed st bs1).1 ++ (feed (feed st bs1).2 bs2).1,
     (feed (feed st bs1).2 bs2).2).
Proof.
  revert st. induction bs1 as [|b bs1 IH]; intros st.
  - cbn. by destruct (feed st bs2).
  - cbn [app feed].
    destruct (match st with None => lead b | Some p => continuation p b end)
      as [out st'].
    rewrite IH. destruct (feed st' bs1) as [o1 s1]. cbn.
    destruct (feed s1 bs2) as [o2 s2]. cbn. by rewrite app_assoc.
Qed.

(* Six low bits joined to the bits above them. *)
Lemma lor_shiftl_low q d : (d < 64)%N -> N.lor (N.shiftl q 6) d = (q * 64 + d)%N.
Proof.
  intros Hd.
  assert (Hdisj : N.land (N.shiftl q 6) d = 0%N).
  { replace d with (N.land d (N.ones 6)) at 1
      by (rewrite N.land_ones; by apply N.mod_small).
    rewrite (N.land_comm d), N.land_assoc, N.land_ones, N.shiftl_mul_pow2.
    by rewrite N.Div0.mod_mul. }
  rewrite <- N.lxor_lor, <- N.add_nocarry_lxor by done.
  by rewrite N.shiftl_mul_pow2.
Qed.

Lemma split_low hi d :
  (d < 64)%N ->
  N.shiftr (hi * 64 + d) 6 = hi /\ N.land (hi * 64 + d) 0x3F = d.
Proof.
  intros Hd. split.
  - rewrite N.shiftr_div_pow2. change (2 ^ 6)%N with 64%N.
    rewrite N.div_add_l by done. rewrite (N.div_small d 64) by done. lia.
  - change 0x3F%N with (N.ones 6). rewrite N.land_ones.
    change (2 ^ 6)%N with 64%N.
    rewrite N.add_comm, N.Div0.mod_add. by apply N.mod_small.
Qed.

Lemma encode_split hi d :
  (2 <= hi)%N -> (d < 64)%N ->
  encode (hi * 64 + d) = encode_head hi ++ [N.lor 0x80 d].
Proof.
  intros Hhi Hd. unfold encode, encode_head.
  destruct (split_low hi d Hd) as [Hs Hl].
  assert (N.shiftr (hi * 64 + d) 12 = N.shiftr hi 6) as H12.
  { change 12%N with (6 + 6)%N. by rewrite <- N.shiftr_shiftr, Hs. }
  assert (N.shiftr (hi * 64 + d) 18 = N.shiftr hi 12) as H18.
  { change 18%N with (6 + 12)%N. by rewrite <- N.shiftr_shiftr, Hs. }
  rewrite Hs, Hl, H12, H18.
  destruct (N.ltb_spec (hi * 64 + d) 0x80); [lia|].
  destruct (N.ltb_spec (hi * 64 + d) 0x800), (N.ltb_spec hi 0x20);
    [done|lia|lia|].
  destruct (N.ltb_spec (hi * 64 + d) 0x10000), (N.ltb_spec hi 0x400);
    [done|lia|lia|done].
Qed.

Lemma scalar_round_trips cp :
  scalar_value cp = true ->
  feed None (encode cp) = ([cp], None)
  /\ Forall (fun b => (b < 256)%N) (encode cp).
Proof.
  intros Hs.
  assert (Hcp : (cp < 0xD800 \/ 0xDFFF < cp < 0x110000)%N).
  { unfold scalar_value in Hs.
    apply orb_true_iff in Hs as [H%N.ltb_lt|[H1%N.ltb_lt H2%N.ltb_lt]%andb_true_iff];
      lia. }
  destruct (N.lt_ge_cases cp 128) as [Hlow|Hhigh].
  - pose proof (all_below_spec _ _ cp ascii_checked Hlow) as H.
    unfold ascii_decodes in H.
    destruct (feed None (encode cp)) as [[|c [|? ?]] [p|]]; try done.
    apply andb_true_iff in H as [->%N.eqb_eq Hb]. split; [done|].
    apply Forall_forall. intros b Hin. rewrite forallb_forall in Hb.
    apply N.ltb_lt, Hb. by apply list_elem_of_In.
  - assert (exists hi d, cp = hi * 64 + d /\ d < 64)%N as (hi & d & -> & Hd').
    { exists (cp / 64)%N, (cp mod 64)%N. split; [|by apply N.mod_lt].
      pose proof (N.Div0.div_mod cp 64). lia. }
    assert (hi < 0x4400)%N as Hhi by lia.
    pose proof (all_below_spec _ _ hi heads_checked Hhi) as Hhead.
    pose proof (all_below_spec _ _ d tails_checked Hd') as Htail.
    cbn beta in Hhead.
    destruct (N.ltb_spec hi 2) as [?|Hge]; [lia|].
    destruct (N.leb_spec 0x360 hi), (N.ltb_spec hi 0x380); try lia;
      cbn in Hhead.
    all: rewrite (encode_split hi d Hge Hd'), feed_app.
    all: unfold head_decodes in Hhead.
    all: destruct (feed None (encode_head hi)) as [[|? ?] [[r q lo up]|]];
      try done; cbn in Hhead.
    all: apply andb_true_iff in Hhead as [Hhead Hbytes].
    all: apply andb_true_iff in Hhead as [Hhead ->%N.eqb_eq].
    all: apply andb_true_iff in Hhead as [Hhead ->%N.eqb_eq].
    all: apply andb_true_iff in Hhead as [->%Nat.eqb_eq ->%N.eqb_eq].
    all: unfold tail_decodes in Htail.
    all: apply andb_true_iff in Htail as [Htail Hlt%N.ltb_lt].
    all: apply andb_true_iff in Htail as [Htail Hland%N.eqb_eq].
    all: cbn [fst snd app feed]; unfold continuation;
      cbn [remaining code_point lower upper].
    all: rewrite Htail, Hland, (lor_shiftl_low hi d Hd'); cbn.
    all: split; [done|]; apply Forall_app; split;
      [|by repeat constructor].
    all: apply Forall_forall; intros b Hin; rewrite forallb_forall in Hbytes;
      apply N.ltb_lt, Hbytes; by apply list_elem_of_In.
Qed.

Lemma decode_encoded cps :
  Forall (fun cp => scalar_value cp = true) cps ->
  decode None (flat_map encode cps) = cps
  /\ Forall (fun b => (b < 256)%N) (flat_map encode cps).
Proof.
  induction 1 as [|cp cps Hcp _ [IH1 IH2]]; [done|].
  destruct (scalar_round_trips cp Hcp) as [Hfeed Hbytes].
  cbn [flat_map]. rewrite decode_feed, Hfeed. cbn. rewrite IH1.
  split; [done|]. by apply Forall_app.
Qed.

Lemma bytes_of_string_of_bytes (bs : list N) :
  Forall (fun b => (b < 256)%N) bs -> bytes_of_string (string_of_bytes bs) = bs.
Proof.
  unfold bytes_of_string, string_of_bytes.
  rewrite list_ascii_of_string_of_list_ascii.
  induction 1 as [|b bs Hb _ IH]; [done|]. cbn. rewrite IH. f_equal.
  by apply N_ascii_embedding.
Qed.

Context {Pty : Type} `{!NodePty Pty}.

(** X15. A binary payload that is well-formed UTF-8 (the encoding of any
    sequence of Unicode scalar values) goes through the relay byte for
    byte: on a session with a pipe-based handle and an open input stream
    the input event succeeds and the process is given exactly the bytes
    of the payload, after what it had been given before. *)
Theorem binary_utf8_verbatim isWindows (s : Server Pty) id ref h cps :
  reachable isWindows s ->
  bound s id ref -> heap s !! ref = Some h ->
  is_pipe h = true -> writable h = true ->
  Forall (fun cp => scalar_value cp = true) cps ->
  exists s1 h1,
    terminal_input id (Binary (flat_map encode cps)) s = Ok s1
    /\ heap s1 !! ref = Some h1
    /\ bytes_received h1 = bytes_received h ++ flat_map encode cps.
Proof.
  intros Hreach Hb Hh Hp Hw Hcps.
  pose proof (reachable_invariant _ _ Hreach) as Hinv.
  assert (Hc : carries s id ref (received h)) by (split; eauto 10).
  destruct (input_accepted isWindows s id ref _
              (Binary (flat_map encode cps)) Hc) as [s1 Hstep].
  destruct (step_relay isWindows (TerminalInput id (Binary (flat_map encode cps)))
              s s1 id ref _ Hinv Hc I Hstep)
    as (_ & h1 & Hh1 & _ & _ & Hrec); [done|].
  exists s1, h1. split; [exact Hstep|]. split; [done|].
  unfold bytes_received. rewrite Hrec. cbn.
  rewrite bool_decide_eq_true_2 by done. cbn.
  rewrite flat_map_app. cbn. rewrite app_nil_r. f_equal.
  unfold toString. destruct (decode_encoded cps Hcps) as [-> Hbytes].
  by apply bytes_of_string_of_bytes.
Qed.

End Utf8.

(** X15 at work: the euro sign and an emoji sent as a Buffer. *)
Lemma binary_utf8_verbatim_witness :
  let s := after true [Connection "c4" all_work] windows_without_node_pty in
  let h := Wsl (PtyWslFallback.onData "c4"
                  (PtyWslFallback.spawn true "powershell.exe" [])) in
  let cps := [0x20AC; 0x1F600]%N in
  reachable true s /\ bound s "c4" 0 /\ heap s !! 0 = Some h
  /\ Forall (fun cp => scalar_value cp = true) cps
  /\ exists s1 h1,
       terminal_input "c4" (Binary [0xE2; 0x82; 0xAC; 0xF0; 0x9F; 0x98; 0x80]%N) s
       = Ok s1
       /\ heap s1 !! 0 = Some h1
       /\ bytes_received h1 = [0xE2; 0x82; 0xAC; 0xF0; 0x9F; 0x98; 0x80]%N.
Proof.
  intros s h cps.
  assert (Hcps : Forall (fun cp => scalar_value cp = true) cps)
    by (repeat constructor).
  split; [apply reachable_one_session|]. split; [reflexivity|].
  split; [reflexivity|]. split; [exact Hcps|].
  exact (binary_utf8_verbatim true s "c4" 0 h cps (reachable_one_session "c4")
           eq_refl eq_refl eq_refl eq_refl Hcps).
Defined.

(** * server/app.js *)

Module AppFacts.
Import App.
Local Open Scope string_scope.

Section Tokens.
Context `{!Libraries}.

Lemma split_space_nonempty s : split_space s <> [].
Proof. destruct s as [|c s]; cbn; [done|]. destruct (Ascii.eqb c " "); [done|].
  by destruct (split_space s). Qed.

Lemma split_space_word w : space_free w = true -> split_space w = [w].
Proof.
  induction w as [|c w IH]; [done|]. cbn.
  destruct (Ascii.eqb c " "); [done|]. cbn. intros Hw. by rewrite IH.
Qed.

Lemma split_space_field w rest :
  space_free w = true ->
  split_space (w ++ " " ++ rest) = w :: split_space rest.
Proof.
  change (" " ++ rest) with (String " "%char rest).
  induction w as [|c w IH]; intros Hw; [done|].
  simpl in Hw |- *.
  destruct (Ascii.eqb c " "); [done|]. by rewrite IH.
Qed.

Lemma append_empty w : w ++ "" = w.
Proof.
  induction w as [|c w IH]; [done|].
  change (String c (w ++ "") = String c w). by f_equal.
Qed.

Lemma append_space_nonempty w rest : String.eqb (w ++ " " ++ rest) "" = false.
Proof. by destruct w. Qed.

Lemma header_token_second scheme token tail :
  space_free scheme = true -> space_free token = true ->
  tail = "" \/ (exists rest, tail = " " ++ rest) ->
  header_token (Some (scheme ++ " " ++ token ++ tail)) = Some token.
Proof.
  intros Hs Ht Htail. unfold header_token.
  rewrite append_space_nonempty, split_space_field by done.
  destruct Htail as [->|[rest ->]].
  - by rewrite append_empty, split_space_word.
  - by rewrite split_space_field.
Qed.

(** X16. [authenticateToken] looks at the second space-separated field
    of the header and at nothing else: whatever the scheme word is
    (Bearer, Basic, or nothing at all) and whatever follows a further
    space, the request is passed on exactly when that field verifies,
    with the verified [userId], and is answered 403 otherwise. The
    Socket.IO middleware decides in the same way on the bare token. *)
Theorem authenticate_second_field now scheme token tail :
  space_free scheme = true -> space_free token = true -> token <> "" ->
  tail = "" \/ (exists rest, tail = " " ++ rest) ->
  authenticateToken now (Some (scheme ++ " " ++ token ++ tail))
  = match jwt_verify now token with
    | Some userId => inr userId
    | None => inl {| status := 403; body := Error "Invalid or expired token" |}
    end
  /\ (forall userId,
        authenticateToken now (Some (scheme ++ " " ++ token ++ tail))
        = inr userId
        <-> socket_auth now (Some token) = inr userId).
Proof.
  intros Hs Ht Hne Htail. unfold authenticateToken, socket_auth.
  rewrite (header_token_second scheme token tail Hs Ht Htail). cbn.
  apply String.eqb_neq in Hne. rewrite Hne. unfold verifyToken.
  split; [done|]. intros userId. destruct (jwt_verify now token); split; congruence.
Qed.

(** X17. Without a second field there is no token: a missing header, an
    empty header, a header of one word, and a header with two spaces
    after its first word are all answered 401, and the token library is
    not consulted (the answer is the same for every library). *)
Theorem authenticate_without_token now authHeader :
  authHeader = None
  \/ (exists word, authHeader = Some word /\ space_free word = true)
  \/ (exists word rest, authHeader = Some (word ++ "  " ++ rest)
                        /\ space_free word = true) ->
  authenticateToken now authHeader
  = inl {| status := 401; body := Error "Access token required" |}.
Proof.
  intros [->|[(word & -> & Hw)|(word & rest & -> & Hw)]]; [done|..];
    unfold authenticateToken, header_token.
  - destruct (String.eqb_spec word "") as [->|_]; [done|].
    by rewrite split_space_word.
  - change (word ++ "  " ++ rest) with (word ++ " " ++ (" " ++ rest)).
    rewrite append_space_nonempty, split_space_field by done. done.
Qed.

End Tokens.

Section Store.
Context `{!Libraries}.

Lemma turn_keeps t st e u :
  users st !! e = Some u -> ~ in_flight e st ->
  users (turn t st).2 !! e = Some u /\ ~ in_flight e (turn t st).2.
Proof.
  intros Hu Hnone.
  assert (Hsuspend : forall k,
            (forall req, k = Hashing req -> req_email req <> e) ->
            ~ in_flight e (suspend k st).2).
  { intros k Hk (ticket & req & Hs & He). cbn in Hs.
    apply lookup_insert_Some in Hs as [[_ ->]|[_ Hs]].
    - by apply (Hk req).
    - apply Hnone. by exists ticket, req. }
  assert (Hdelete : forall ticket us,
            ~ in_flight e {| users := us;
                             suspended := delete ticket (suspended st);
                             tickets := tickets st |}).
  { intros ticket us (ticket' & req & Hs & He). cbn in Hs.
    apply lookup_delete_Some in Hs as [_ Hs].
    apply Hnone. by exists ticket', req. }
  destruct t as [|[req|req|now a|now a]|ticket now signed_at salt]; cbn;
    try done.
  - unfold register_begin. destruct (errors req); [|done].
    destruct (users st !! req_email req) eqn:E; [done|].
    split; [done|]. apply Hsuspend. intros ? [= <-]. congruence.
  - unfold login_begin. destruct (errors req); [|done].
    destruct (users st !! req_email req) eqn:E; [|done].
    split; [done|]. by apply Hsuspend.
  - unfold settle.
    destruct (suspended st !! ticket) as [[req|req user]|] eqn:E; [..|done].
    + assert (Hne : req_email req <> e).
      { intros He. apply Hnone. by exists ticket, req. }
      unfold register_resume.
      destruct (bcrypt_hash salt (req_password req)); cbn;
        (split; [|apply Hdelete]); [|done].
      by rewrite lookup_insert_ne.
    + cbn. split; [done|apply Hdelete].
Qed.

Lemma serve_keeps ts st e u :
  users st !! e = Some u -> ~ in_flight e st ->
  users (serve ts st).2 !! e = Some u /\ ~ in_flight e (serve ts st).2.
Proof.
  revert st. induction ts as [|t ts IH]; intros st Hu Hnone; [done|]. cbn.
  destruct (turn_keeps t st e u Hu Hnone) as [Hu1 Hnone1].
  destruct (turn t st) as [a st1]. cbn in Hu1, Hnone1.
  specialize (IH st1 Hu1 Hnone1). by destruct (serve ts st1).
Qed.

Lemma turn_keeps_suspended t st ticket k :
  suspended st !! ticket = Some k -> ticket < tickets st ->
  settles ticket t = false ->
  suspended (turn t st).2 !! ticket = Some k /\ ticket < tickets (turn t st).2.
Proof.
  intros Hk Hlt Hsettles.
  assert (Hsuspend : forall k',
            suspended (suspend k' st).2 !! ticket = Some k
            /\ ticket < tickets (suspend k' st).2).
  { intros k'. cbn. split; [|lia]. rewrite lookup_insert_ne; [done|lia]. }
  destruct t as [|[req|req|now a|now a]|ticket' now signed_at salt]; cbn;
    try done.
  - unfold register_begin. destruct (errors req); [|done].
    by destruct (users st !! req_email req).
  - unfold login_begin. destruct (errors req); [|done].
    by destruct (users st !! req_email req).
  - cbn in Hsettles. apply bool_decide_eq_false in Hsettles.
    unfold settle.
    destruct (suspended st !! ticket') as [[req|req user]|]; [..|done].
    + destruct (register_resume _ _ _ _ _). cbn.
      by rewrite lookup_delete_ne.
    + cbn. by rewrite lookup_delete_ne.
Qed.

Lemma serve_keeps_suspended ts st ticket k :
  suspended st !! ticket = Some k -> ticket < tickets st ->
  Forall (fun t => settles ticket t = false) ts ->
  suspended (serve ts st).2 !! ticket = Some k.
Proof.
  intros Hk Hlt Hall. revert st Hk Hlt.
  induction Hall as [|t ts Ht _ IH]; intros st Hk Hlt; [done|]. cbn.
  destruct (turn_keeps_suspended t st ticket k Hk Hlt Ht) as [Hk1 Hlt1].
  destruct (turn t st) as [a st1]. cbn in Hk1, Hlt1.
  specialize (IH st1 Hk1 Hlt1). by destruct (serve ts st1).
Qed.

(** X18. An account cannot be taken over by a later registration. Once
    a user is stored under an email and no registration for that email
    is suspended at its [await], then whatever turns follow, in whatever
    interleaving and whatever the rate limiter lets through, the user
    found under the email has the same id, password hash and name, and
    a registration that arrives for the email is answered 409. The
    sample user is such an account from the start. *)
Theorem stored_accounts_are_kept ts st e u req :
  users st !! e = Some u -> ~ in_flight e st ->
  errors req = [] -> req_email req = e ->
  users (serve ts st).2 !! e = Some u
  /\ turn (Arrive (Register req)) (serve ts st).2
     = (Answered {| status := 409; body := Error "User already exists" |},
        (serve ts st).2)
  /\ users (serve ts initial_store).2 !! "test@example.com" = Some sample_user.
Proof.
  intros Hu Hnone Herr He.
  destruct (serve_keeps ts st e u Hu Hnone) as [Hu1 _].
  split; [done|]. split.
  - cbn. unfold register_begin. by rewrite Herr, He, Hu1.
  - apply serve_keeps; [done|].
    intros (ticket & req0 & Hs & _). cbn in Hs. by rewrite lookup_empty in Hs.
Qed.

(** X19. Register, then log in. Let a registration be answered 201
    when its hashing completes, with no other registration for the same
    email suspended at that moment. After any further turns, a login
    with the same email and password that the rate limiter lets through
    is suspended at [bcrypt.compare]; and whatever turns are served
    while it waits, it is answered 200 with the id, email and name of
    the registration, provided bcrypt matches the password against the
    hash it made of it. *)
Theorem register_then_login st ticket now signed_at salt req hashed
    a1 st1 ts answers st2 req' a3 st3 ts' answers' st4 signed_at' now' salt' :
  suspended st !! ticket = Some (Hashing req) ->
  bcrypt_hash salt (req_password req) = Some hashed ->
  bcrypt_compare (req_password req) hashed = Some true ->
  turn (Settle ticket now signed_at salt) st = (a1, st1) ->
  ~ in_flight (req_email req) st1 ->
  serve ts st1 = (answers, st2) ->
  errors req' = [] -> req_email req' = req_email req ->
  req_password req' = req_password req ->
  turn (Arrive (Login req')) st2 = (a3, st3) ->
  serve ts' st3 = (answers', st4) ->
  Forall (fun t => settles (tickets st2) t = false) ts' ->
  a1 = Answered
         {| status := 201;
            body := Registered (generateToken signed_at (clock_string now))
                      (clock_string now) (req_email req) (req_name req) |}
  /\ a3 = Awaiting (tickets st2)
  /\ (turn (Settle (tickets st2) now' signed_at' salt') st4).1
     = Answered
         {| status := 200;
            body := LoggedIn (generateToken signed_at' (clock_string now))
                      (clock_string now) (req_email req) (req_name req) |}.
Proof.
  intros Hs Hh Hc H1 Hnone H2 Herr He Hp H3 H4 Hall.
  cbn in H1. unfold settle in H1. rewrite Hs, Hh in H1. cbn in H1.
  injection H1 as <- <-. split; [done|].
  set (u := {| id := clock_string now; email := req_email req;
               password := hashed; name := req_name req |}) in *.
  assert (Hu2 : users st2 !! req_email req = Some u).
  { pose proof (serve_keeps ts _ (req_email req) u
                  (lookup_insert_eq _ _ _) Hnone) as [K _].
    by rewrite H2 in K. }
  cbn in H3. unfold login_begin in H3. rewrite Herr, He, Hu2 in H3.
  injection H3 as <- <-. split; [done|].
  assert (Hs4 : suspended st4 !! tickets st2 = Some (Comparing req' u)).
  { pose proof (serve_keeps_suspended ts' (suspend (Comparing req' u) st2).2
                  (tickets st2) (Comparing req' u)) as K.
    cbn in K. rewrite H4 in K. apply K; [apply lookup_insert_eq|lia|done]. }
  cbn. unfold settle. rewrite Hs4. cbn. by rewrite Hp, Hc.
Qed.

(** X20. User ids come from the clock alone. Two registrations whose
    hashing completes at the same reading of [Date.now()] are both
    answered 201 with the same id. The one that completes last is
    stored under its email; if the emails differ, the other one is
    stored too, and two accounts share an id; if both are for the same
    email (each passed the [users.has] check before the other was
    stored), the later one has replaced the earlier. *)
Theorem same_clock_same_id st t1 t2 req1 req2 now signed1 signed2
    salt1 salt2 hashed1 hashed2 a1 st1 a2 st2 :
  t1 <> t2 ->
  suspended st !! t1 = Some (Hashing req1) ->
  suspended st !! t2 = Some (Hashing req2) ->
  bcrypt_hash salt1 (req_password req1) = Some hashed1 ->
  bcrypt_hash salt2 (req_password req2) = Some hashed2 ->
  turn (Settle t1 now signed1 salt1) st = (a1, st1) ->
  turn (Settle t2 now signed2 salt2) st1 = (a2, st2) ->
  a1 = Answered
         {| status := 201;
            body := Registered (generateToken signed1 (clock_string now))
                      (clock_string now) (req_email req1) (req_name req1) |}
  /\ a2 = Answered
            {| status := 201;
               body := Registered (generateToken signed2 (clock_string now))
                         (clock_string now) (req_email req2) (req_name req2) |}
  /\ users st2 !! req_email req2
     = Some {| id := clock_string now; email := req_email req2;
               password := hashed2; name := req_name req2 |}
  /\ (req_email req1 <> req_email req2 ->
      users st2 !! req_email req1
      = Some {| id := clock_string now; email := req_email req1;
                password := hashed1; name := req_name req1 |}).
Proof.
  intros Hne Hs1 Hs2 Hh1 Hh2 H1 H2.
  cbn in H1. unfold settle in H1. rewrite Hs1, Hh1 in H1. cbn in H1.
  injection H1 as <- <-.
  cbn in H2. unfold settle in H2. cbn in H2.
  rewrite lookup_delete_ne, Hs2, Hh2 in H2 by done. cbn in H2.
  injection H2 as <- <-. cbn.
  split; [done|]. split; [done|]. split; [apply lookup_insert_eq|].
  intros He. rewrite lookup_insert_ne by done. apply lookup_insert_eq.
Qed.

End Store.
End AppFacts.

(** X16 at work: a header with the scheme Basic. *)
Lemma authenticate_second_field_witness :
  let _ := App.toy_libraries in
  App.space_free "Basic" = true /\ App.space_free ".42" = true
  /\ App.authenticateToken 0 (Some "Basic .42 trailing") = inr "42".
Proof.
  intros L.
  assert (Hne : ".42" <> ""%string) by discriminate.
  split; [reflexivity|]. split; [reflexivity|].
  exact (proj1 (AppFacts.authenticate_second_field 0%N "Basic" ".42" " trailing"
                  eq_refl eq_refl Hne (or_intror (ex_intro _ "trailing" eq_refl)))).
Defined.

(** X17 at work: a header of one word. *)
Lemma authenticate_without_token_witness :
  let _ := App.toy_libraries in
  App.space_free ".42" = true
  /\ App.authenticateToken 0 (Some ".42")
     = inl {| App.status := 401; App.body := App.Error "Access token required" |}.
Proof.
  intros L. split; [reflexivity|].
  exact (AppFacts.authenticate_without_token 0%N (Some ".42")
           (or_intror (or_introl (ex_intro _ ".42" (conj eq_refl eq_refl))))).
Defined.

(** X18 at work: Mallory registers over the sample user while other
    requests are served and refused. *)
Lemma stored_accounts_are_kept_witness :
  let _ := App.toy_libraries in
  let ts := [App.Arrive (App.Register alice); App.Refuse;
             App.Arrive (App.Register mallory);
             App.Settle 0 1700000000000 1700000000001 "salt";
             App.Arrive (App.Login mallory)] in
  App.users App.initial_store !! "test@example.com" = Some App.sample_user
  /\ ~ App.in_flight "test@example.com" App.initial_store
  /\ App.users (App.serve ts App.initial_store).2 !! "test@example.com"
     = Some App.sample_user
  /\ (App.turn (App.Arrive (App.Register mallory))
        (App.serve ts App.initial_store).2).1
     = App.Answered {| App.status := 409;
                       App.body := App.Error "User already exists" |}.
Proof.
  intros L ts.
  assert (Hnone : ~ App.in_flight "test@example.com" App.initial_store).
  { intros (ticket & req & Hs & _). cbn in Hs. by rewrite lookup_empty in Hs. }
  pose proof (AppFacts.stored_accounts_are_kept ts App.initial_store
                "test@example.com" App.sample_user mallory
                eq_refl Hnone eq_refl eq_refl) as (Hkept & Hrefused & _).
  split; [reflexivity|]. split; [exact Hnone|]. split; [exact Hkept|].
  by rewrite Hrefused.
Defined.

(** X19 at work: Alice registers; Bob registers while she does; later
    Alice logs in, and Bob's hashing completes while her login waits. *)
Lemma register_then_login_witness :
  let _ := App.toy_libraries in
  let st := (App.serve [App.Arrive (App.Register alice);
                        App.Arrive (App.Register bob)] App.initial_store).2 in
  let st1 := (App.turn (App.Settle 0 1700000000000 1700000000001 "salt") st).2 in
  let st3 := (App.turn (App.Arrive (App.Login alice)) st1).2 in
  let st4 := (App.turn (App.Settle 1 1700000000500 1700000000501 "pepper") st3).2 in
  App.suspended st !! 0 = Some (App.Hashing alice)
  /\ ~ App.in_flight "alice@example.com" st1
  /\ (App.turn (App.Arrive (App.Login alice)) st1).1 = App.Awaiting 2
  /\ (App.turn (App.Settle 2 1700000000998 1700000000999 "") st4).1
     = App.Answered
         {| App.status := 200;
            App.body := App.LoggedIn ".1700000000000" "1700000000000"
                          "alice@example.com" "Alice" |}.
Proof.
  intros L st st1 st3 st4.
  assert (Hnone : ~ App.in_flight "alice@example.com" st1).
  { intros (ticket & req & Hs & He).
    change (App.suspended st1)
      with (delete 0 (<[1 := App.Hashing bob]>
                        (<[0 := App.Hashing alice]>
                           (∅ : gmap nat App.Suspended)))) in Hs.
    apply lookup_delete_Some in Hs as [Hne Hs].
    apply lookup_insert_Some in Hs as [[_ Hk]|[_ Hs]].
    - injection Hk as <-. discriminate He.
    - apply lookup_insert_Some in Hs as [[Hk _]|[_ Hs]]; [done|].
      by rewrite lookup_empty in Hs. }
  pose proof (AppFacts.register_then_login st 0 1700000000000 1700000000001
                "salt" alice "$secret1" _ st1 [] [] st1 alice _ st3
                [App.Settle 1 1700000000500 1700000000501 "pepper"] _ st4
                1700000000999 1700000000998 ""
                eq_refl eq_refl eq_refl eq_refl Hnone eq_refl eq_refl eq_refl
                eq_refl eq_refl eq_refl)
    as (_ & Hwaits & Hlogin).
  { repeat constructor. }
  split; [reflexivity|]. split; [exact Hnone|]. split; [exact Hwaits|].
  exact Hlogin.
Defined.

(** X20 at work: two registrations for Alice's email overlap, and both
    complete in the same millisecond. Both are answered 201; the
    account has the password of the second. *)
Lemma same_clock_same_id_witness :
  let _ := App.toy_libraries in
  let st := (App.serve [App.Arrive (App.Register alice);
                        App.Arrive (App.Register other_alice)]
               App.initial_store).2 in
  let r1 := App.turn (App.Settle 0 1700000000000 1700000000001 "salt") st in
  let r2 := App.turn (App.Settle 1 1700000000000 1700000000002 "pepper") r1.2 in
  App.suspended st !! 0 = Some (App.Hashing alice)
  /\ App.suspended st !! 1 = Some (App.Hashing other_alice)
  /\ r1.1 = App.Answered
              {| App.status := 201;
                 App.body := App.Registered ".1700000000000" "1700000000000"
                               "alice@example.com" "Alice" |}
  /\ r2.1 = App.Answered
              {| App.status := 201;
                 App.body := App.Registered ".1700000000000" "1700000000000"
                               "alice@example.com" "Mallory" |}
  /\ App.users r2.2 !! "alice@example.com"
     = Some {| App.id := "1700000000000"; App.email := "alice@example.com";
               App.password := "$hunter22"; App.name := "Mallory" |}.
Proof.
  intros L st r1 r2.
  assert (Hne : 0 <> 1) by discriminate.
  pose proof (AppFacts.same_clock_same_id st 0 1 alice other_alice
                1700000000000 1700000000001 1700000000002 "salt" "pepper"
                "$secret1" "$hunter22" r1.1 r1.2 r2.1 r2.2
                Hne eq_refl eq_refl eq_refl eq_refl eq_refl eq_refl)
    as (H1 & H2 & Hstored & _).
  split; [reflexivity|]. split; [reflexivity|]. split; [exact H1|].
  split; [exact H2|exact Hstored].
Defined.
